(** * Redis cache service and pub/sub notifier ([backend/cache.py])

    A shallow embedding of [CacheService] and [PubSubService] together
    with the two libraries they drive: Python's [json] module (the
    [dumps]/[loads] pair with the options the service passes) and the
    Redis client commands [GET], [SETEX], [DEL], [SCAN MATCH] and
    [PUBLISH].

    Modelling conventions.
    - A Python [str] is a [string]; every character stands for the code
      point of the same number (0..255).
    - A Python [int] is a [Z].  Floating-point numbers are outside the
      value model; the decoder rejects numerals with a fraction or an
      exponent, and the constants [NaN] and [Infinity].
    - A [dict] is an association list in insertion order, which is the
      order [json.dumps] writes the members in.
    - The Redis server is a finite map from keys to entries; every
      command sent through the client consumes one flag of a fault plan
      and raises [ConnectionError] without touching the server when the
      flag is set. *)

From Stdlib Require Import ZArith Ascii DecimalString DecimalFacts DecimalPos DecimalZ.
From Stdlib Require String.
From stdpp Require Import base option list strings gmap fin_maps.

Set Warnings "-register-all".
Local Open Scope Z_scope.

(** The double quote, written by its code so that no literal needs it. *)
Definition dq : ascii := "034"%char.

(** ** Python values *)

(** Keys of a [dict].  [json.dumps] accepts [str], [int], [bool] and
    [None] keys; a key of any other hashable type ([KOther], e.g. a
    tuple or a date) makes it raise [TypeError]. *)
Inductive pykey : Type :=
  | KStr (s : string)
  | KInt (z : Z)
  | KBool (b : bool)
  | KNone
  | KOther (repr : string).

(** [PObj repr] is any object the JSON encoder has no rule for (a
    [datetime], an [ObjectId], a [set], ...); [repr] is what [str]
    returns on it. *)
Inductive pyval : Type :=
  | PNone
  | PBool (b : bool)
  | PInt (z : Z)
  | PStr (s : string)
  | PList (l : list pyval)
  | PTuple (l : list pyval)
  | PDict (d : list (pykey * pyval))
  | PObj (repr : string).

(** Exceptions, all of them subclasses of [Exception]. *)
Inductive exn : Type :=
  | ConnectionError
  | ResponseError
  | TypeError
  | JSONDecodeError.

Inductive result (A : Type) : Type :=
  | Ok (a : A)
  | Err (e : exn).
Arguments Ok {A} a.
Arguments Err {A} e.

Global Instance pykey_eq_dec : EqDecision pykey.
Proof. solve_decision. Defined.

Global Instance exn_eq_dec : EqDecision exn.
Proof. solve_decision. Defined.

(** Structural induction that reaches inside lists and dictionaries. *)
Section pyval_induction.
Variable P : pyval → Prop.
Hypothesis HNone : P PNone.
Hypothesis HBool : ∀ b, P (PBool b).
Hypothesis HInt : ∀ z, P (PInt z).
Hypothesis HStr : ∀ s, P (PStr s).
Hypothesis HList : ∀ l, Forall P l → P (PList l).
Hypothesis HTuple : ∀ l, Forall P l → P (PTuple l).
Hypothesis HDict : ∀ d, Forall (λ kv, P kv.2) d → P (PDict d).
Hypothesis HObj : ∀ r, P (PObj r).

Fixpoint pyval_rect_nested (v : pyval) : P v :=
  match v with
  | PNone => HNone
  | PBool b => HBool b
  | PInt z => HInt z
  | PStr s => HStr s
  | PList l =>
      HList l ((fix go (l : list pyval) : Forall P l :=
                  match l with
                  | [] => Forall_nil_2 P
                  | x :: l' => Forall_cons_2 P x l' (pyval_rect_nested x) (go l')
                  end) l)
  | PTuple l =>
      HTuple l ((fix go (l : list pyval) : Forall P l :=
                   match l with
                   | [] => Forall_nil_2 P
                   | x :: l' => Forall_cons_2 P x l' (pyval_rect_nested x) (go l')
                   end) l)
  | PDict d =>
      HDict d ((fix go (d : list (pykey * pyval)) : Forall (λ kv, P kv.2) d :=
                  match d with
                  | [] => Forall_nil_2 _
                  | kv :: d' =>
                      Forall_cons_2 (λ kv, P kv.2) kv d' (pyval_rect_nested kv.2) (go d')
                  end) d)
  | PObj r => HObj r
  end.
End pyval_induction.

(** ** [json.dumps(value, default=str)] *)

Module Json.

(** [int.__repr__]: decimal digits, a leading minus sign for negatives. *)
Definition int_text (z : Z) : string :=
  NilZero.string_of_int (Z.to_int z).

Definition hex_digit (n : N) : ascii :=
  match n with
  | 0 => "0" | 1 => "1" | 2 => "2" | 3 => "3" | 4 => "4" | 5 => "5"
  | 6 => "6" | 7 => "7" | 8 => "8" | 9 => "9" | 10 => "a" | 11 => "b"
  | 12 => "c" | 13 => "d" | 14 => "e" | _ => "f"
  end%N%char.

(** [ESCAPE_ASCII]: the quote and the backslash, the five short
    escapes, and [\u00xx] for everything outside [' '..'~']. *)
Definition escape_char (c : ascii) : string :=
  let n := N_of_ascii c in
  if (n =? 34)%N then String "\" (String dq EmptyString)
  else if (n =? 92)%N then String "\" (String "\" EmptyString)
  else if (n =? 10)%N then String "\" (String "n" EmptyString)
  else if (n =? 13)%N then String "\" (String "r" EmptyString)
  else if (n =? 9)%N then String "\" (String "t" EmptyString)
  else if (n =? 8)%N then String "\" (String "b" EmptyString)
  else if (n =? 12)%N then String "\" (String "f" EmptyString)
  else if ((n <? 32) || (126 <? n))%N then
    String "\" (String "u" (String "0" (String "0"
      (String (hex_digit (n / 16)) (String (hex_digit (n mod 16)) EmptyString)))))
  else String c EmptyString.

Fixpoint escape (s : string) : string :=
  match s with
  | EmptyString => EmptyString
  | String c s' => escape_char c +:+ escape s'
  end.

(** [encode_basestring_ascii] *)
Definition quote (s : string) : string :=
  String dq (escape s +:+ String dq EmptyString).

(** Keys are coerced to strings by the encoder itself ([default] is
    never consulted for them).  No text means that the encoder raises
    [TypeError]: keys must be [str], [int], [float], [bool] or [None]. *)
Definition key_text (k : pykey) : option string :=
  match k with
  | KStr s => Some s
  | KInt z => Some (int_text z)
  | KBool true => Some "true"
  | KBool false => Some "false"
  | KNone => Some "null"
  | KOther _ => None
  end.

Definition key_ok (k : pykey) : bool :=
  match key_text k with Some _ => true | None => false end.

(** Does the encoder get through [v] without raising? *)
Fixpoint encodable (v : pyval) : bool :=
  match v with
  | PList l | PTuple l => forallb encodable l
  | PDict d => forallb (λ kv, key_ok kv.1 && encodable kv.2) d
  | _ => true
  end.

(** The text produced, with the default separators [", "] and [": "].
    [items_tail] and [members_tail] write what follows the first item
    of a non-empty array or object, closing bracket included. *)
Definition items_tail (f : pyval → string) : list pyval → string :=
  fix more (l : list pyval) : string :=
    match l with
    | [] => "]"
    | y :: l' => ", " +:+ f y +:+ more l'
    end.

Definition member_text (f : pyval → string) (k : pykey) (x : pyval) : string :=
  quote (default EmptyString (key_text k)) +:+ ": " +:+ f x.

Definition members_tail (f : pyval → string) : list (pykey * pyval) → string :=
  fix more (d : list (pykey * pyval)) : string :=
    match d with
    | [] => "}"
    | (k, y) :: d' => ", " +:+ member_text f k y +:+ more d'
    end.

Fixpoint text (v : pyval) : string :=
  match v with
  | PNone => "null"
  | PBool true => "true"
  | PBool false => "false"
  | PInt z => int_text z
  | PStr s => quote s
  | PList l | PTuple l =>
      match l with
      | [] => "[]"
      | x :: l' => "[" +:+ text x +:+ items_tail text l'
      end
  | PDict d =>
      match d with
      | [] => "{}"
      | (k, x) :: d' => "{" +:+ member_text text k x +:+ members_tail text d'
      end
  | PObj r => quote r
  end.

Definition dumps (v : pyval) : result string :=
  if encodable v then Ok (text v) else Err TypeError.

(** *** [json.loads] *)

Definition is_ws (c : ascii) : bool :=
  match c with
  | " " | "009" | "010" | "013" => true
  | _ => false
  end%char.

Fixpoint skip_ws (s : string) : string :=
  match s with
  | String c s' => if is_ws c then skip_ws s' else s
  | EmptyString => EmptyString
  end.

Definition digit_of (c : ascii) : option (Decimal.uint → Decimal.uint) :=
  match c with
  | "0" => Some Decimal.D0 | "1" => Some Decimal.D1 | "2" => Some Decimal.D2
  | "3" => Some Decimal.D3 | "4" => Some Decimal.D4 | "5" => Some Decimal.D5
  | "6" => Some Decimal.D6 | "7" => Some Decimal.D7 | "8" => Some Decimal.D8
  | "9" => Some Decimal.D9 | _ => None
  end%char.

Definition is_digit (c : ascii) : bool :=
  match digit_of c with Some _ => true | None => false end.

(** The longest run of decimal digits at the head of [s]. *)
Fixpoint lex_uint (s : string) : Decimal.uint * string :=
  match s with
  | String c s' =>
      match digit_of c with
      | Some dk => let '(d, r) := lex_uint s' in (dk d, r)
      | None => (Decimal.Nil, s)
      end
  | EmptyString => (Decimal.Nil, EmptyString)
  end.

(** The integer part of [NUMBER_RE], [0|[1-9]\d*]: a leading zero is a
    complete integer part on its own. *)
Definition lex_intpart (s : string) : option (Decimal.uint * string) :=
  match s with
  | String c s' =>
      if Ascii.eqb c "0" then Some (Decimal.D0 Decimal.Nil, s')
      else if is_digit c then Some (lex_uint s)
      else None
  | EmptyString => None
  end.

(** Do the fraction or exponent groups of [NUMBER_RE] match at [s]?
    Then the numeral denotes a float. *)
Definition float_tail (s : string) : bool :=
  match s with
  | String c (String c1 r) =>
      if Ascii.eqb c "." then is_digit c1
      else if Ascii.eqb c "e" || Ascii.eqb c "E" then
        is_digit c1 ||
        ((Ascii.eqb c1 "+" || Ascii.eqb c1 "-") &&
         match r with String c2 _ => is_digit c2 | EmptyString => false end)
      else false
  | _ => false
  end.

Definition scan_number (s : string) : result (pyval * string) :=
  let '(neg, s1) :=
    match s with
    | String c s' => if Ascii.eqb c "-" then (true, s') else (false, s)
    | EmptyString => (false, s)
    end in
  match lex_intpart s1 with
  | None => Err JSONDecodeError
  | Some (d, r) =>
      if float_tail r then Err JSONDecodeError
      else Ok (PInt (Z.of_int (if neg then Decimal.Neg d else Decimal.Pos d)), r)
  end.

Definition hex_val (c : ascii) : option N :=
  let n := N_of_ascii c in
  if ((48 <=? n) && (n <=? 57))%N then Some (n - 48)%N
  else if ((97 <=? n) && (n <=? 102))%N then Some (n - 87)%N
  else if ((65 <=? n) && (n <=? 70))%N then Some (n - 55)%N
  else None.

Definition hex4 (h1 h2 h3 h4 : ascii) : option N :=
  a ← hex_val h1; b ← hex_val h2; c ← hex_val h3; d ← hex_val h4;
  Some (((a * 16 + b) * 16 + c) * 16 + d)%N.

(** The character a one-letter escape stands for. *)
Definition short_escape (e : ascii) : option ascii :=
  if Ascii.eqb e dq then Some dq
  else match e with
       | "\" => Some "\" | "/" => Some "/"
       | "b" => Some "008" | "f" => Some "012" | "n" => Some "010"
       | "r" => Some "013" | "t" => Some "009"
       | _ => None
       end%char.

(** [scanstring] in strict mode, entered just after the opening quote:
    the decoded string and the text after the closing quote.  An escape
    [\uXXXX] of a code point above 255 has no counterpart in [string]
    and is rejected. *)
Fixpoint scanstring (s : string) : result (string * string) :=
  let cont (c : ascii) (k : result (string * string)) :=
    match k with
    | Ok (t, r) => Ok (String c t, r)
    | Err e => Err e
    end in
  match s with
  | EmptyString => Err JSONDecodeError
  | String c s' =>
      if Ascii.eqb c dq then Ok (EmptyString, s')
      else if Ascii.eqb c "\" then
        match s' with
        | EmptyString => Err JSONDecodeError
        | String e s2 =>
            if Ascii.eqb e "u" then
              match s2 with
              | String h1 (String h2 (String h3 (String h4 s3))) =>
                  match hex4 h1 h2 h3 h4 with
                  | Some n =>
                      if (n <? 256)%N then cont (ascii_of_N n) (scanstring s3)
                      else Err JSONDecodeError
                  | None => Err JSONDecodeError
                  end
              | _ => Err JSONDecodeError
              end
            else
              match short_escape e with
              | Some ch => cont ch (scanstring s2)
              | None => Err JSONDecodeError
              end
        end
      else if (N_of_ascii c <? 32)%N then Err JSONDecodeError
      else cont c (scanstring s')
  end.

Fixpoint strip_prefix (p s : string) : option string :=
  match p, s with
  | EmptyString, _ => Some s
  | String a p', String b s' => if Ascii.eqb a b then strip_prefix p' s' else None
  | String _ _, EmptyString => None
  end.

Definition literal (p : string) (v : pyval) (s : string) : result (pyval * string) :=
  match strip_prefix p s with
  | Some r => Ok (v, r)
  | None => Err JSONDecodeError
  end.

(** [dict(pairs)]: a repeated key keeps its first position and takes
    the last value. *)
Fixpoint dict_set (k : pykey) (v : pyval) (d : list (pykey * pyval)) :
    list (pykey * pyval) :=
  match d with
  | [] => [(k, v)]
  | (k', v') :: d' =>
      if decide (k = k') then (k', v) :: d' else (k', v') :: dict_set k v d'
  end.

Definition dict_of_pairs (ps : list (pykey * pyval)) : list (pykey * pyval) :=
  fold_left (λ d kv, dict_set kv.1 kv.2 d) ps [].

(** [scan_once], with the array and object loops; [n] bounds the
    number of nested and successive calls. *)
Fixpoint parse_value (n : nat) (s : string) : result (pyval * string) :=
  match n with
  | O => Err JSONDecodeError
  | S n =>
      match s with
      | EmptyString => Err JSONDecodeError
      | String c s' =>
          if Ascii.eqb c dq then
            match scanstring s' with
            | Ok (t, r) => Ok (PStr t, r)
            | Err e => Err e
            end
          else if Ascii.eqb c "{" then
            match skip_ws s' with
            | String c1 r1 =>
                if Ascii.eqb c1 "}" then Ok (PDict [], r1)
                else match parse_members n (String c1 r1) with
                     | Ok (ps, r) => Ok (PDict (dict_of_pairs ps), r)
                     | Err e => Err e
                     end
            | EmptyString => Err JSONDecodeError
            end
          else if Ascii.eqb c "[" then
            match skip_ws s' with
            | String c1 r1 =>
                if Ascii.eqb c1 "]" then Ok (PList [], r1)
                else match parse_elems n (String c1 r1) with
                     | Ok (vs, r) => Ok (PList vs, r)
                     | Err e => Err e
                     end
            | EmptyString => Err JSONDecodeError
            end
          else if Ascii.eqb c "n" then literal "null" PNone s
          else if Ascii.eqb c "t" then literal "true" (PBool true) s
          else if Ascii.eqb c "f" then literal "false" (PBool false) s
          else scan_number s
      end
  end
with parse_elems (n : nat) (s : string) : result (list pyval * string) :=
  match n with
  | O => Err JSONDecodeError
  | S n =>
      match parse_value n s with
      | Err e => Err e
      | Ok (v, s1) =>
          match skip_ws s1 with
          | String c r =>
              if Ascii.eqb c "," then
                match parse_elems n (skip_ws r) with
                | Ok (vs, r') => Ok (v :: vs, r')
                | Err e => Err e
                end
              else if Ascii.eqb c "]" then Ok ([v], r)
              else Err JSONDecodeError
          | EmptyString => Err JSONDecodeError
          end
      end
  end
with parse_members (n : nat) (s : string) :
    result (list (pykey * pyval) * string) :=
  match n with
  | O => Err JSONDecodeError
  | S n =>
      match s with
      | EmptyString => Err JSONDecodeError
      | String c0 s0 =>
          if negb (Ascii.eqb c0 dq) then Err JSONDecodeError
          else match scanstring s0 with
          | Err e => Err e
          | Ok (k, s1) =>
              match skip_ws s1 with
              | EmptyString => Err JSONDecodeError
              | String c2 s2 =>
                  if negb (Ascii.eqb c2 ":") then Err JSONDecodeError
                  else match parse_value n (skip_ws s2) with
                  | Err e => Err e
                  | Ok (v, s3) =>
                      match skip_ws s3 with
                      | String c r =>
                          if Ascii.eqb c "," then
                            match parse_members n (skip_ws r) with
                            | Ok (ps, r') => Ok ((KStr k, v) :: ps, r')
                            | Err e => Err e
                            end
                          else if Ascii.eqb c "}" then Ok ([(KStr k, v)], r)
                          else Err JSONDecodeError
                      | EmptyString => Err JSONDecodeError
                      end
                  end
              end
          end
      end
  end.

(** [JSONDecoder.decode]: leading white space, one value, trailing
    white space, end of input. *)
Definition loads (s : string) : result pyval :=
  match parse_value (S (String.length s)) (skip_ws s) with
  | Err e => Err e
  | Ok (v, r) =>
      match skip_ws r with
      | EmptyString => Ok v
      | String _ _ => Err JSONDecodeError
      end
  end.

(** *** Values as the decoder returns them *)

(** What [loads] reads back from the text of [v]: tuples come back as
    lists, keys as strings, unknown objects as their [str]. *)
Fixpoint as_json (v : pyval) : pyval :=
  match v with
  | PList l | PTuple l => PList (map as_json l)
  | PDict d =>
      PDict (dict_of_pairs
               (map (λ kv, (KStr (default EmptyString (key_text kv.1)), as_json kv.2)) d))
  | PObj r => PStr r
  | _ => v
  end.

Definition is_str_key (k : pykey) : bool :=
  match k with KStr _ => true | _ => false end.

(** The values of the JSON data model: [null], booleans, integers,
    strings, arrays, and objects whose keys are distinct strings. *)
Fixpoint json_value (v : pyval) : bool :=
  match v with
  | PNone | PBool _ | PInt _ | PStr _ => true
  | PList l => forallb json_value l
  | PDict d =>
      forallb (λ kv, is_str_key kv.1 && json_value kv.2) d &&
      bool_decide (NoDup d.*1)
  | PTuple _ | PObj _ => false
  end.




(** *** Auxiliary predicates on JSON text *)

Definition starts_digit (s : string) : bool :=
  match s with String c _ => is_digit c | EmptyString => false end.

(** Text that may follow a numeral without changing how it is read. *)
Definition number_stop (s : string) : bool :=
  match s with
  | EmptyString => true
  | String c _ =>
      negb (is_digit c) && negb (Ascii.eqb c ".") && negb (Ascii.eqb c "e") &&
      negb (Ascii.eqb c "E")
  end.

(** Characters a JSON text written by the encoder can begin with. *)
Definition value_start (c : ascii) : bool :=
  is_digit c || Ascii.eqb c "-" || Ascii.eqb c dq || Ascii.eqb c "[" ||
  Ascii.eqb c "{" || Ascii.eqb c "n" || Ascii.eqb c "t" || Ascii.eqb c "f".

(** The induction hypothesis carried through arrays and objects. *)
Definition reads_back (v : pyval) : Prop :=
  encodable v = true →
  ∀ n rest, (String.length (text v) ≤ n)%nat → number_stop rest = true →
    parse_value n (text v +:+ rest) = Ok (as_json v, rest).

End Json.

(** ** The Redis server and its client *)

Module Redis.

(** *** Glob patterns of [SCAN ... MATCH] *)

Inductive gtok : Type :=
  | GStar
  | GAny
  | GLit (c : ascii)
  | GClass (neg : bool) (items : list (ascii * ascii)).

(** The pattern is read left to right; [cls] is [Some (neg, items)]
    while the reader is inside a bracket expression. *)
Fixpoint glob_parse (cls : option (bool * list (ascii * ascii))) (p : string) :
    list gtok :=
  match cls with
  | None =>
      match p with
      | EmptyString => []
      | String c p1 =>
          if Ascii.eqb c "*" then GStar :: glob_parse None p1
          else if Ascii.eqb c "?" then GAny :: glob_parse None p1
          else if Ascii.eqb c "[" then
            match p1 with
            | String c1 p2 =>
                if Ascii.eqb c1 "^" then glob_parse (Some (true, [])) p2
                else glob_parse (Some (false, [])) p1
            | EmptyString => [GClass false []]
            end
          else if Ascii.eqb c "\" then
            match p1 with
            | String c1 p2 => GLit c1 :: glob_parse None p2
            | EmptyString => [GLit c]
            end
          else GLit c :: glob_parse None p1
      end
  | Some (neg, items) =>
      match p with
      | EmptyString => [GClass neg items]
      | String c p1 =>
          match p1 with
          | String c1 p2 =>
              if Ascii.eqb c "\" then
                glob_parse (Some (neg, items ++ [(c1, c1)])) p2
              else if Ascii.eqb c "]" then GClass neg items :: glob_parse None p1
              else
                match p2 with
                | String c2 p3 =>
                    if Ascii.eqb c1 "-" then
                      let lo := N.min (N_of_ascii c) (N_of_ascii c2) in
                      let hi := N.max (N_of_ascii c) (N_of_ascii c2) in
                      glob_parse
                        (Some (neg, items ++ [(ascii_of_N lo, ascii_of_N hi)])) p3
                    else glob_parse (Some (neg, items ++ [(c, c)])) p1
                | EmptyString => glob_parse (Some (neg, items ++ [(c, c)])) p1
                end
          | EmptyString =>
              if Ascii.eqb c "]" then [GClass neg items]
              else [GClass neg (items ++ [(c, c)])]
          end
      end
  end.

Definition in_range (c : ascii) (r : ascii * ascii) : bool :=
  ((N_of_ascii r.1 <=? N_of_ascii c) && (N_of_ascii c <=? N_of_ascii r.2))%N.

Fixpoint glob_tokens_match (ts : list gtok) (s : string) : bool :=
  match ts with
  | [] => match s with EmptyString => true | String _ _ => false end
  | GStar :: ts' =>
      (fix try (s : string) : bool :=
         glob_tokens_match ts' s ||
         match s with
         | String _ s' => try s'
         | EmptyString => false
         end) s
  | GAny :: ts' =>
      match s with
      | String _ s' => glob_tokens_match ts' s'
      | EmptyString => false
      end
  | GLit c :: ts' =>
      match s with
      | String d s' => Ascii.eqb c d && glob_tokens_match ts' s'
      | EmptyString => false
      end
  | GClass neg items :: ts' =>
      match s with
      | String d s' =>
          xorb neg (existsb (in_range d) items) && glob_tokens_match ts' s'
      | EmptyString => false
      end
  end.

Definition glob_match (pattern key : string) : bool :=
  glob_tokens_match (glob_parse None pattern) key.

(** *** Server state and the process around it *)

(** A stored string with the time to live it was written with. *)
Record entry : Type := Entry { e_text : string; e_ttl : Z }.

(** [redis_pool] is the module-level [redis_pool]; [w_made] counts the
    client objects built by [redis.from_url]; [w_outbox] lists the
    published messages, oldest first; [w_faults] is the fault plan of
    the transport; [w_log] collects the warnings. *)
Record world : Type := World {
  redis_pool : option nat;
  w_made : nat;
  w_store : gmap string entry;
  w_outbox : list (string * string);
  w_faults : list bool;
  w_log : list (string * exn)
}.

Definition set_pool (p : option nat) (made : nat) (w : world) : world :=
  World p made (w_store w) (w_outbox w) (w_faults w) (w_log w).
Definition set_store (σ : gmap string entry) (w : world) : world :=
  World (redis_pool w) (w_made w) σ (w_outbox w) (w_faults w) (w_log w).
Definition set_outbox (o : list (string * string)) (w : world) : world :=
  World (redis_pool w) (w_made w) (w_store w) o (w_faults w) (w_log w).
Definition set_faults (fs : list bool) (w : world) : world :=
  World (redis_pool w) (w_made w) (w_store w) (w_outbox w) fs (w_log w).
Definition set_log (l : list (string * exn)) (w : world) : world :=
  World (redis_pool w) (w_made w) (w_store w) (w_outbox w) (w_faults w) l.

(** The keys a [SCAN ... MATCH pattern] iteration yields. *)
Definition matching (pattern : string) (σ : gmap string entry) : list string :=
  filter (λ k, glob_match pattern k = true) (map fst (map_to_list σ)).

(** A pattern character that stands for itself. *)
Definition plain_char (c : ascii) : bool :=
  negb (Ascii.eqb c "*" || Ascii.eqb c "?" || Ascii.eqb c "[" || Ascii.eqb c "\").

Fixpoint plain (p : string) : bool :=
  match p with
  | EmptyString => true
  | String c p' => plain_char c && plain p'
  end.

(** Computations that may raise and that change the world. *)
Definition M (A : Type) : Type := world → result A * world.

Definition ret {A} (a : A) : M A := λ w, (Ok a, w).
Definition raise {A} (e : exn) : M A := λ w, (Err e, w).
Definition bind {A B} (m : M A) (k : A → M B) : M B :=
  λ w, match m w with
       | (Ok a, w') => k a w'
       | (Err e, w') => (Err e, w')
       end.
(** [try: body except Exception as e: handler] *)
Definition try_except {A} (body : M A) (handler : exn → M A) : M A :=
  λ w, match body w with
       | (Ok a, w') => (Ok a, w')
       | (Err e, w') => handler e w'
       end.
Definition lift {A} (r : result A) : M A := λ w, (r, w).

Notation "x <- m ;; k" := (bind m (λ x, k))
  (at level 100, m at next level, right associativity).
Notation "m ;;; k" := (bind m (λ _, k))
  (at level 100, right associativity).

Definition warning (msg : string) (e : exn) : M unit :=
  λ w, (Ok (), set_log (w_log w ++ [(msg, e)]) w).

(** One round trip to the server: the next flag of the fault plan
    decides whether the command gets there.  Every command below is a
    method of a client object [r]; all clients reach the same server. *)
Definition transmit : M unit :=
  λ w, match w_faults w with
       | true :: fs => (Err ConnectionError, set_faults fs w)
       | false :: fs => (Ok (), set_faults fs w)
       | [] => (Ok (), w)
       end.

Definition GET (r : nat) (key : string) : M (option string) :=
  transmit ;;; λ w, (Ok (e_text <$> w_store w !! key), w).

(** The server refuses a time to live that is not positive. *)
Definition SETEX (r : nat) (key : string) (ttl : Z) (value : string) : M unit :=
  transmit ;;;
  λ w, if (ttl <=? 0)%Z then (Err ResponseError, w)
       else (Ok (), set_store (<[key := Entry value ttl]> (w_store w)) w).

(** [DEL key ...]: the number of keys that were removed. *)
Fixpoint del_keys (keys : list string) (σ : gmap string entry) :
    Z * gmap string entry :=
  match keys with
  | [] => (0, σ)
  | k :: keys' =>
      match σ !! k with
      | Some _ => let '(n, σ') := del_keys keys' (delete k σ) in (1 + n, σ')
      | None => del_keys keys' σ
      end
  end.

Definition DEL (r : nat) (keys : list string) : M Z :=
  transmit ;;;
  λ w, let '(n, σ) := del_keys keys (w_store w) in (Ok n, set_store σ w).

(** All keys matching the pattern, as the full cursor iteration of
    [scan_iter] yields them on a store nobody else is writing to. *)
Definition SCAN_MATCH (r : nat) (pattern : string) : M (list string) :=
  transmit ;;;
  λ w, (Ok (matching pattern (w_store w)), w).

Definition PUBLISH (r : nat) (channel message : string) : M unit :=
  transmit ;;;
  λ w, (Ok (), set_outbox (w_outbox w ++ [(channel, message)]) w).

(** Does the plan make the next command fail? *)
Definition next_fault (w : world) : bool :=
  match w_faults w with
  | true :: _ => true
  | _ => false
  end.

(** Do the next [n] commands get through? *)
Definition fault_free (n : nat) (w : world) : bool :=
  forallb negb (take n (w_faults w)).

(** The data a caller can observe on the server: keys and messages. *)
Definition same_data (w w' : world) : Prop :=
  w_store w' = w_store w ∧ w_outbox w' = w_outbox w.

(** *** Connection management *)

(** [redis.from_url] builds a client object and does no I/O; the
    object is identified by its serial number. *)
Definition get_redis : M nat :=
  λ w, match redis_pool w with
       | None => (Ok (w_made w), set_pool (Some (w_made w)) (S (w_made w)) w)
       | Some r => (Ok r, w)
       end.

Definition close_redis : M unit :=
  λ w, match redis_pool w with
       | Some _ => (Ok (), set_pool None (w_made w) w)
       | None => (Ok (), w)
       end.

End Redis.

Import Redis.

(** ** [class CacheService] *)

Module CacheService.

Definition SHORT_TTL : Z := 60.
Definition MEDIUM_TTL : Z := 300.
Definition LONG_TTL : Z := 3600.

Definition PREFIX_PRODUCTS : string := "products:".
Definition PREFIX_CATEGORIES : string := "categories:".
Definition PREFIX_CAR_BRANDS : string := "car_brands:".
Definition PREFIX_CAR_MODELS : string := "car_models:".
Definition PREFIX_PRODUCT_BRANDS : string := "product_brands:".
Definition PREFIX_USER : string := "user:".
Definition PREFIX_CART : string := "cart:".
Definition PREFIX_SYNC : string := "sync:".

(** [ttl or dflt] for an optional integer argument: [None] and [0] are
    the falsy values. *)
Definition ttl_or (ttl : option Z) (dflt : Z) : Z :=
  match ttl with
  | Some t => if (t =? 0)%Z then dflt else t
  | None => dflt
  end.

Definition get (key : string) : M pyval :=
  try_except
    (r <- get_redis ;;
     value <- GET r key ;;
     match value with
     | Some (String c t) => lift (Json.loads (String c t))
     | Some EmptyString | None => ret PNone
     end)
    (λ e, warning "Cache get error" e ;;; ret PNone).

Definition set (key : string) (value : pyval) (ttl : option Z) : M bool :=
  try_except
    (r <- get_redis ;;
     let ttl := ttl_or ttl MEDIUM_TTL in
     payload <- lift (Json.dumps value) ;;
     SETEX r key ttl payload ;;;
     ret true)
    (λ e, warning "Cache set error" e ;;; ret false).

Definition delete (key : string) : M bool :=
  try_except
    (r <- get_redis ;;
     DEL r [key] ;;;
     ret true)
    (λ e, warning "Cache delete error" e ;;; ret false).

Definition delete_pattern (pattern : string) : M Z :=
  try_except
    (r <- get_redis ;;
     keys <- SCAN_MATCH r pattern ;;
     match keys with
     | _ :: _ => DEL r keys
     | [] => ret 0
     end)
    (λ e, warning "Cache delete pattern error" e ;;; ret 0).

(** The helpers below have no [return] statement of their own value:
    they await the primitive, drop its result, and return [None]. *)
Definition invalidate_products : M pyval :=
  delete_pattern (PREFIX_PRODUCTS +:+ "*") ;;; ret PNone.

Definition invalidate_categories : M pyval :=
  delete_pattern (PREFIX_CATEGORIES +:+ "*") ;;; ret PNone.

Definition invalidate_car_brands : M pyval :=
  delete_pattern (PREFIX_CAR_BRANDS +:+ "*") ;;; ret PNone.

Definition invalidate_car_models : M pyval :=
  delete_pattern (PREFIX_CAR_MODELS +:+ "*") ;;; ret PNone.

Definition invalidate_product_brands : M pyval :=
  delete_pattern (PREFIX_PRODUCT_BRANDS +:+ "*") ;;; ret PNone.

Definition get_all_products : M pyval :=
  get (PREFIX_PRODUCTS +:+ "all").

Definition set_all_products (products : list pyval) (ttl : option Z) : M pyval :=
  set (PREFIX_PRODUCTS +:+ "all") (PList products) (Some (ttl_or ttl LONG_TTL)) ;;;
  ret PNone.

Definition get_product (product_id : string) : M pyval :=
  get (PREFIX_PRODUCTS +:+ product_id).

Definition set_product (product_id : string) (product : list (pykey * pyval))
    (ttl : option Z) : M pyval :=
  set (PREFIX_PRODUCTS +:+ product_id) (PDict product) (Some (ttl_or ttl LONG_TTL)) ;;;
  ret PNone.

Definition get_categories_tree : M pyval :=
  get (PREFIX_CATEGORIES +:+ "tree").

Definition set_categories_tree (tree : list pyval) (ttl : option Z) : M pyval :=
  set (PREFIX_CATEGORIES +:+ "tree") (PList tree) (Some (ttl_or ttl LONG_TTL)) ;;;
  ret PNone.



Definition get_all_car_models : M pyval :=
  get (PREFIX_CAR_MODELS +:+ "all").

Definition set_all_car_models (models : list pyval) (ttl : option Z) : M pyval :=
  set (PREFIX_CAR_MODELS +:+ "all") (PList models) (Some (ttl_or ttl LONG_TTL)) ;;;
  ret PNone.

Definition get_all_product_brands : M pyval :=
  get (PREFIX_PRODUCT_BRANDS +:+ "all").

Definition set_all_product_brands (brands : list pyval) (ttl : option Z) : M pyval :=
  set (PREFIX_PRODUCT_BRANDS +:+ "all") (PList brands) (Some (ttl_or ttl LONG_TTL)) ;;;
  ret PNone.

Definition get_last_sync_timestamp (table : string) : M pyval :=
  get (PREFIX_SYNC +:+ "timestamp:" +:+ table).

Definition set_last_sync_timestamp (table : string) (timestamp : Z) : M pyval :=
  set (PREFIX_SYNC +:+ "timestamp:" +:+ table) (PInt timestamp) (Some LONG_TTL) ;;;
  ret PNone.

End CacheService.

(** ** [class PubSubService] *)

Module PubSubService.

Definition CHANNEL_PRODUCTS : string := "channel:products".
Definition CHANNEL_ORDERS : string := "channel:orders".
Definition CHANNEL_SYNC : string := "channel:sync".

Definition publish (channel : string) (message : list (pykey * pyval)) : M pyval :=
  try_except
    (r <- get_redis ;;
     payload <- lift (Json.dumps (PDict message)) ;;
     PUBLISH r channel payload ;;;
     ret PNone)
    (λ e, warning "Pub/Sub publish error" e ;;; ret PNone).

Definition notify_product_change (product_id action : string) : M pyval :=
  publish CHANNEL_PRODUCTS
    [(KStr "product_id", PStr product_id); (KStr "action", PStr action)] ;;;
  ret PNone.

(** [user_id: str = None] *)
Definition notify_order_change (order_id action : string) (user_id : option string) :
    M pyval :=
  publish CHANNEL_ORDERS
    [(KStr "order_id", PStr order_id); (KStr "action", PStr action);
     (KStr "user_id", from_option PStr PNone user_id)] ;;;
  ret PNone.

Definition notify_sync_available (tables : list pyval) : M pyval :=
  publish CHANNEL_SYNC
    [(KStr "tables", PList tables); (KStr "action", PStr "sync_available")] ;;;
  ret PNone.

End PubSubService.

(** ** Cooperative scheduling of first-time callers of [get_redis]

    [get_redis] is a coroutine without an [await] in its body, so the
    event loop runs each call from start to end before it resumes
    another task: the scheduler chooses only the order of the calls. *)

Module Loop.

Inductive task : Type :=
  | Waiting
  | Holding (r : nat).

Definition run_task (i : nat) (st : world * list task) : world * list task :=
  match st.2 !! i with
  | Some Waiting =>
      match get_redis st.1 with
      | (Ok r, w') => (w', <[i := Holding r]> st.2)
      | (Err _, w') => (w', st.2)
      end
  | _ => st
  end.

(** The scheduler resumes the tasks in the order of [sched]. *)
Definition run_schedule (sched : list nat) (st : world * list task) :
    world * list task :=
  fold_left (λ st i, run_task i st) sched st.

(** What holds of every state the scheduler can reach from [n] waiting
    tasks and an empty pool whose construction counter reads [m]. *)
Definition reached (m n : nat) (st : world * list task) : Prop :=
  length st.2 = n ∧
  match redis_pool st.1 with
  | None => w_made st.1 = m ∧ st.2 = replicate n Waiting
  | Some r =>
      r = m ∧ w_made st.1 = S m ∧
      Forall (λ t, t = Waiting ∨ t = Holding m) st.2
  end.

End Loop.

(** ** Values and worlds used as examples *)

Module Samples.

(** A product record of the JSON data model. *)
Definition sample_value : pyval :=
  PDict [(KStr "id", PInt 7); (KStr "tags", PList [PStr "a\b"; PNone; PBool true])].

Definition idle : world := World None 0 ∅ [] [] [].

(** A connected process whose next command fails. *)
Definition outage : world := World (Some 0%nat) 1 ∅ [] [true] [].

(** A server holding exactly the four keys of the invalidation
    scenario. *)
Definition catalog : world :=
  World None 0
    (<["products:all" := Entry "[]" 3600]>
       (<["products:1" := Entry "{}" 3600]>
          (<["products:2" := Entry "{}" 3600]>
             (<["categories:tree" := Entry "[]" 3600]> ∅))))
    [] [] [].



End Samples.

(** ** The domains of the cache and further example worlds *)

Module Domains.
Import CacheService.

(** The five bulk invalidations, each with the prefix it is built on. *)
Definition invalidators : list (string * M pyval) :=
  [(PREFIX_PRODUCTS, invalidate_products);
   (PREFIX_CATEGORIES, invalidate_categories);
   (PREFIX_CAR_BRANDS, invalidate_car_brands);
   (PREFIX_CAR_MODELS, invalidate_car_models);
   (PREFIX_PRODUCT_BRANDS, invalidate_product_brands)].

(** Every key prefix the class declares. *)
Definition prefixes : list string :=
  [PREFIX_PRODUCTS; PREFIX_CATEGORIES; PREFIX_CAR_BRANDS; PREFIX_CAR_MODELS;
   PREFIX_PRODUCT_BRANDS; PREFIX_USER; PREFIX_CART; PREFIX_SYNC].

(** The five primitives that talk to the server, each with the message
    its handler logs. *)
Inductive call : Type :=
  | CallGet (key : string)
  | CallSet (key : string) (value : pyval) (ttl : option Z)
  | CallDelete (key : string)
  | CallDeletePattern (pattern : string)
  | CallPublish (channel : string) (message : list (pykey * pyval)).

(** A call run for its effect on the world; its result is dropped. *)
Definition perform (c : call) (w : world) : world :=
  match c with
  | CallGet k => (get k w).2
  | CallSet k v ttl => (set k v ttl w).2
  | CallDelete k => (delete k w).2
  | CallDeletePattern p => (delete_pattern p w).2
  | CallPublish ch m => (PubSubService.publish ch m w).2
  end.

(** A sequence of calls, first to last. *)
Definition perform_all (cs : list call) (w : world) : world :=
  fold_left (λ w c, perform c w) cs w.

Definition warning_text (c : call) : string :=
  match c with
  | CallGet _ => "Cache get error"
  | CallSet _ _ _ => "Cache set error"
  | CallDelete _ => "Cache delete error"
  | CallDeletePattern _ => "Cache delete pattern error"
  | CallPublish _ _ => "Pub/Sub publish error"
  end.

(** Is [k] a key the call is aimed at?  Reads and publications aim at
    no key. *)
Definition targets (c : call) (k : string) : bool :=
  match c with
  | CallSet key _ _ | CallDelete key => bool_decide (k = key)
  | CallDeletePattern p => glob_match p k
  | CallGet _ | CallPublish _ _ => false
  end.

Definition is_publish (c : call) : bool :=
  match c with CallPublish _ _ => true | _ => false end.

(** What a call adds to the list of published messages when its
    command gets through. *)
Definition published (c : call) : list (string * string) :=
  match c with
  | CallPublish ch m =>
      match Json.dumps (PDict m) with
      | Ok t => [(ch, t)]
      | Err _ => []
      end
  | _ => []
  end.

(** An entry as [set] writes it: a positive time to live and a text
    the decoder accepts. *)
Definition sound_entry (e : entry) : bool :=
  (0 <? e_ttl e) &&
  match Json.loads (e_text e) with Ok _ => true | Err _ => false end.

(** A transport on which no command fails. *)
Definition reliable (w : world) : bool := forallb negb (w_faults w).

End Domains.

Module Scenarios.

(** A process that is connected to a server with two product entries
    and one brand entry. *)
Definition stocked : world :=
  World (Some 0%nat) 1
    (<["products:all" := Entry "[1, 2]" 3600]>
       (<["products:1" := Entry "{}" 3600]>
          (<["product_brands:all" := Entry "[]" 3600]> ∅)))
    [] [] [].

(** The same server behind a transport that drops the next command and
    then recovers. *)
Definition flaky : world :=
  World (Some 0%nat) 1 (w_store stocked) [] [true] [].


End Scenarios.

(** * Properties *)

(** ** Proof automation *)

#[local] Arguments String.append !_ _ / : simpl nomatch.
#[local] Arguments Json.member_text : simpl never.

(** Case analysis on the 256 characters. *)
Ltac all_chars c :=
  destruct c as [[] [] [] [] [] [] [] []].

(** Unfolds one call of a service primitive down to the world. *)
Ltac run :=
  unfold CacheService.get, CacheService.set, CacheService.delete,
    CacheService.delete_pattern, PubSubService.publish,
    GET, SETEX, DEL, SCAN_MATCH, PUBLISH, get_redis, warning,
    try_except, bind, ret, lift, transmit, set_pool, set_store, set_outbox,
    set_faults, set_log, next_fault, fault_free in *;
  simpl in *.

(** Case analysis on the innermost scrutinee, until none is left. *)
Ltac split_matches :=
  repeat match goal with
         | |- context [match ?x with _ => _ end] =>
             lazymatch x with
             | context [match _ with _ => _ end] => fail
             | _ => destruct x eqn:?; simpl
             end
         end.

(** ** Strings *)

Lemma append_assoc (s1 s2 s3 : string) : (s1 +:+ s2) +:+ s3 = s1 +:+ (s2 +:+ s3).
Proof. induction s1 as [|c s1 IH]; simpl; [done | by rewrite IH]. Qed.

Lemma append_nil_r (s : string) : s +:+ EmptyString = s.
Proof. induction s as [|c s IH]; simpl; [done | by rewrite IH]. Qed.

Lemma length_append (s1 s2 : string) :
  String.length (s1 +:+ s2) = (String.length s1 + String.length s2)%nat.
Proof. induction s1 as [|c s1 IH]; simpl; [done | by rewrite IH]. Qed.

(** ** The decoder inverts the encoder *)

Module JsonFacts.
Import Json.

Lemma number_stop_digit s : number_stop s = true → starts_digit s = false.
Proof.
  destruct s as [|c s]; [done|]. simpl. intros H.
  destruct (is_digit c); [done | done].
Qed.

Lemma number_stop_float s : number_stop s = true → float_tail s = false.
Proof.
  destruct s as [|c [|c1 s]]; [done | done |].
  unfold number_stop, float_tail.
  destruct (Ascii.eqb c "."), (Ascii.eqb c "e"), (Ascii.eqb c "E"),
    (is_digit c); simpl; done.
Qed.

Lemma lex_uint_app d rest :
  starts_digit rest = false →
  lex_uint (NilEmpty.string_of_uint d +:+ rest) = (d, rest).
Proof.
  intros Hr. induction d; simpl; rewrite ?IHd; try done.
  destruct rest as [|c r]; [done|]. simpl in *. unfold is_digit in Hr.
  by destruct (digit_of c).
Qed.

Lemma to_uint_unorm p : Decimal.unorm (Pos.to_uint p) = Pos.to_uint p.
Proof.
  pose proof (DecimalPos.Unsigned.to_of (Pos.to_uint p)) as H.
  by rewrite DecimalPos.Unsigned.of_to in H.
Qed.

Lemma to_uint_head p :
  match Pos.to_uint p with
  | Decimal.Nil | Decimal.D0 _ => False
  | _ => True
  end.
Proof.
  pose proof (to_uint_unorm p) as Hn.
  pose proof (DecimalPos.Unsigned.to_uint_nonzero p) as Hz.
  pose proof (DecimalPos.Unsigned.to_uint_nonnil p) as Hnil.
  destruct (Pos.to_uint p) as [|d| | | | | | | | | ] eqn:E; try done.
  rewrite DecimalFacts.unorm_D0 in Hn.
  destruct d as [|d'| | | | | | | | | ] eqn:Ed;
    try (by apply Hz);
    (pose proof (DecimalFacts.nb_digits_unorm d) as Hlen;
     rewrite Ed in Hlen; rewrite Hn in Hlen; simpl in Hlen;
     specialize (Hlen ltac:(done)); lia).
Qed.

Lemma scan_number_text z rest :
  number_stop rest = true →
  scan_number (int_text z +:+ rest) = Ok (PInt z, rest).
Proof.
  intros Hs.
  pose proof (number_stop_digit _ Hs) as Hd.
  pose proof (number_stop_float _ Hs) as Hf.
  pose proof (DecimalZ.of_to z) as Hz.
  unfold int_text. destruct z as [|p|p]; simpl in *.
  - unfold scan_number. simpl. by rewrite Hf.
  - pose proof (to_uint_head p) as Hh.
    unfold NilZero.string_of_uint, scan_number.
    destruct (Pos.to_uint p) as [|d|d|d|d|d|d|d|d|d|d] eqn:E; try done;
      simpl; rewrite (lex_uint_app d rest Hd), Hf; by rewrite <- Hz.
  - pose proof (to_uint_head p) as Hh.
    unfold NilZero.string_of_uint, scan_number.
    destruct (Pos.to_uint p) as [|d|d|d|d|d|d|d|d|d|d] eqn:E; try done;
      simpl; rewrite (lex_uint_app d rest Hd), Hf; by rewrite <- Hz.
Qed.

Lemma scan_escape_char c rest :
  scanstring (escape_char c +:+ rest) =
  match scanstring rest with
  | Ok (t, r) => Ok (String c t, r)
  | Err e => Err e
  end.
Proof. all_chars c; reflexivity. Qed.

Lemma scanstring_escape s rest :
  scanstring (escape s +:+ String dq rest) = Ok (s, rest).
Proof.
  induction s as [|c s IH]; [done|].
  simpl escape. by rewrite append_assoc, scan_escape_char, IH.
Qed.

Lemma quote_append s rest :
  quote s +:+ rest = String dq (escape s +:+ String dq rest).
Proof. unfold quote. simpl. by rewrite append_assoc. Qed.

Lemma parse_value_quote n s rest :
  parse_value (S n) (quote s +:+ rest) = Ok (PStr s, rest).
Proof. rewrite quote_append. simpl. by rewrite scanstring_escape. Qed.

(** Every encoded value begins with a character that announces it. *)
Lemma int_text_start z : ∃ c t, int_text z = String c t ∧ value_start c = true.
Proof.
  unfold int_text. destruct z as [|p|p]; simpl.
  - by eexists _, _.
  - pose proof (to_uint_head p) as Hh. unfold NilZero.string_of_uint.
    destruct (Pos.to_uint p); try done; by eexists _, _.
  - by eexists _, _.
Qed.

Lemma text_start v : ∃ c t, text v = String c t ∧ value_start c = true.
Proof.
  destruct v as [|[]|z|s|[|x l]|[|x l]|[|[k x] d]|r];
    try (by eexists _, _); apply int_text_start.
Qed.

Lemma text_not_closing v rest :
  ∃ c t, text v +:+ rest = String c t ∧ Ascii.eqb c "]" = false.
Proof.
  destruct (text_start v) as (c & t & -> & Hv). exists c, (t +:+ rest).
  split; [done|]. revert Hv. all_chars c; done.
Qed.

Lemma value_start_not_ws c : value_start c = true → is_ws c = false.
Proof. all_chars c; done. Qed.

Lemma skip_ws_text v rest : skip_ws (text v +:+ rest) = text v +:+ rest.
Proof.
  destruct (text_start v) as (c & t & -> & Hc). simpl.
  by rewrite (value_start_not_ws c Hc).
Qed.

Lemma skip_ws_quote s rest : skip_ws (quote s +:+ rest) = quote s +:+ rest.
Proof. done. Qed.

Lemma parse_value_number n c t :
  (is_digit c || Ascii.eqb c "-") = true →
  parse_value (S n) (String c t) = scan_number (String c t).
Proof. all_chars c; done. Qed.

Lemma parse_value_int n z rest :
  number_stop rest = true →
  parse_value (S n) (int_text z +:+ rest) = Ok (PInt z, rest).
Proof.
  intros Hs. rewrite <- (scan_number_text z rest Hs).
  assert (∃ c t, int_text z = String c t ∧ (is_digit c || Ascii.eqb c "-") = true)
    as (c & t & -> & Hc).
  { unfold int_text. destruct z as [|p|p]; simpl.
    - by eexists _, _.
    - pose proof (to_uint_head p) as Hh. unfold NilZero.string_of_uint.
      destruct (Pos.to_uint p); try done; by eexists _, _.
    - by eexists _, _. }
  simpl. by apply parse_value_number.
Qed.

Lemma items_tail_cons f y l :
  items_tail f (y :: l) = ", " +:+ f y +:+ items_tail f l.
Proof. done. Qed.

Lemma members_tail_cons f k y d :
  members_tail f ((k, y) :: d) = ", " +:+ member_text f k y +:+ members_tail f d.
Proof. done. Qed.

Lemma member_text_append k x rest :
  member_text text k x +:+ rest =
  String dq (escape (default EmptyString (key_text k)) +:+
             String dq (String ":" (String " " (text x +:+ rest)))).
Proof. unfold member_text. by rewrite !append_assoc, quote_append. Qed.

Lemma text_dict_cons k x d :
  text (PDict ((k, x) :: d)) = "{" +:+ member_text text k x +:+ members_tail text d.
Proof. done. Qed.

Lemma items_tail_stop l rest : number_stop (items_tail text l +:+ rest) = true.
Proof. by destruct l. Qed.

Lemma members_tail_stop d rest : number_stop (members_tail text d +:+ rest) = true.
Proof. by destruct d as [|[k x] d]. Qed.

Lemma items_tail_length l : (1 ≤ String.length (items_tail text l))%nat.
Proof. destruct l; simpl; lia. Qed.

Lemma members_tail_length d : (1 ≤ String.length (members_tail text d))%nat.
Proof. destruct d as [|[k x] d]; simpl; lia. Qed.

Lemma parse_elems_text l : Forall reads_back l → ∀ x,
  reads_back x → encodable x = true → forallb encodable l = true →
  ∀ n rest,
    (String.length (text x) + String.length (items_tail text l) ≤ n)%nat →
    parse_elems n (text x +:+ items_tail text l +:+ rest) =
      Ok (as_json x :: map as_json l, rest).
Proof.
  induction 1 as [|y l Hy Hl IH]; intros x Hx Ex El n rest Hn.
  - simpl in Hn. destruct n as [|n]; [lia|].
    simpl parse_elems. rewrite Hx; [done | done | lia | done].
  - simpl in El. apply andb_prop in El as [Ey El].
    pose proof (items_tail_length l) as Hlen.
    simpl in Hn. repeat (rewrite ?length_append in Hn; simpl in Hn).
    destruct n as [|n]; [lia|].
    simpl parse_elems.
    rewrite Hx; [| done | lia | apply (items_tail_stop (y :: l))].
    rewrite ?items_tail_cons, ?append_assoc. simpl. rewrite skip_ws_text.
    rewrite IH; [done | done | done | done | lia].
Qed.

Lemma parse_members_text d :
  Forall (λ kv, reads_back kv.2) d → ∀ k x,
  reads_back x → encodable x = true →
  forallb (λ kv, key_ok kv.1 && encodable kv.2) d = true →
  ∀ n rest,
    (String.length (member_text text k x) +
       String.length (members_tail text d) ≤ n)%nat →
    parse_members n (member_text text k x +:+ members_tail text d +:+ rest) =
      Ok (map (λ kv, (KStr (default EmptyString (key_text kv.1)), as_json kv.2))
            ((k, x) :: d), rest).
Proof.
  induction 1 as [|[k' y] d Hy Hd IH]; intros k x Hx Ex Ed n rest Hn.
  - unfold member_text in Hn. simpl in Hn.
    repeat (rewrite ?length_append in Hn; simpl in Hn).
    destruct n as [|n]; [lia|].
    rewrite member_text_append.
    simpl parse_members. rewrite scanstring_escape. simpl.
    rewrite skip_ws_text.
    rewrite Hx; [done | done | lia | done].
  - simpl in Ed. apply andb_prop in Ed as [Ey Ed].
    apply andb_prop in Ey as [_ Ey]. simpl in Hy.
    pose proof (members_tail_length d) as Hlen.
    rewrite members_tail_cons in Hn |- *.
    unfold member_text in Hn. simpl in Hn.
    repeat (rewrite ?length_append in Hn; simpl in Hn).
    destruct n as [|n]; [lia|].
    rewrite (member_text_append k x).
    simpl parse_members. rewrite scanstring_escape. simpl.
    rewrite skip_ws_text.
    rewrite Hx; [| done | lia | done].
    rewrite !append_assoc. simpl.
    rewrite <- (member_text_append k' y).
    rewrite IH; [done | done | done | done |].
    unfold member_text. repeat (rewrite ?length_append; simpl). lia.
Qed.

Lemma parse_text v : reads_back v.
Proof.
  induction v as [|b|z|s|l IH|l IH|d IH|r] using pyval_rect_nested;
    intros Ev n rest Hn Hs.
  - destruct n as [|n]; [simpl in Hn; lia | done].
  - destruct n as [|n]; [destruct b; simpl in Hn; lia | by destruct b].
  - destruct (int_text_start z) as (c & t & Hz & _).
    destruct n as [|n]; [simpl in Hn; rewrite Hz in Hn; simpl in Hn; lia|].
    by apply parse_value_int.
  - destruct n as [|n]; [simpl in Hn; lia|]. apply parse_value_quote.
  - destruct l as [|x l].
    + destruct n as [|n]; [simpl in Hn; lia | done].
    + apply Forall_cons_1 in IH as [Hx Hl]. simpl in Ev.
      apply andb_prop in Ev as [Ex El].
      simpl in Hn. rewrite length_append in Hn.
      destruct n as [|n]; [lia|].
      simpl. rewrite ?append_assoc. rewrite skip_ws_text.
      destruct (text_not_closing x (items_tail text l +:+ rest))
        as (c & t & Hc & Hb).
      rewrite Hc, Hb, <- Hc.
      rewrite (parse_elems_text l Hl x Hx Ex El); [done | lia].
  - destruct l as [|x l].
    + destruct n as [|n]; [simpl in Hn; lia | done].
    + apply Forall_cons_1 in IH as [Hx Hl]. simpl in Ev.
      apply andb_prop in Ev as [Ex El].
      simpl in Hn. rewrite length_append in Hn.
      destruct n as [|n]; [lia|].
      simpl. rewrite ?append_assoc. rewrite skip_ws_text.
      destruct (text_not_closing x (items_tail text l +:+ rest))
        as (c & t & Hc & Hb).
      rewrite Hc, Hb, <- Hc.
      rewrite (parse_elems_text l Hl x Hx Ex El); [done | lia].
  - destruct d as [|[k x] d].
    + destruct n as [|n]; [simpl in Hn; lia | done].
    + apply Forall_cons_1 in IH as [Hx Hd]. simpl in Ev, Hx.
      apply andb_prop in Ev as [Ex Ed]. apply andb_prop in Ex as [_ Ex].
      rewrite text_dict_cons in Hn |- *.
      rewrite !length_append in Hn. change (String.length "{") with 1%nat in Hn.
      destruct n as [|n]; [lia|].
      rewrite !append_assoc.
      pose proof (parse_members_text d Hd k x Hx Ex Ed n rest ltac:(lia)) as Hp.
      rewrite member_text_append in Hp |- *.
      simpl. simpl in Hp. by rewrite Hp.
  - destruct n as [|n]; [simpl in Hn; lia|]. apply parse_value_quote.
Qed.

(** Decoding the text of any value the encoder accepts. *)
Lemma loads_text v : encodable v = true → loads (text v) = Ok (as_json v).
Proof.
  intros Ev. unfold loads.
  pose proof (skip_ws_text v EmptyString) as Hw.
  pose proof (parse_text v Ev (S (String.length (text v))) EmptyString
                ltac:(lia) eq_refl) as Hp.
  rewrite append_nil_r in Hw, Hp. by rewrite Hw, Hp.
Qed.

Lemma loads_dumps v t : dumps v = Ok t → loads t = Ok (as_json v).
Proof.
  unfold dumps. destruct (encodable v) eqn:Ev; [|done].
  intros [= <-]. by apply loads_text.
Qed.

(** Building a dictionary from pairs with distinct keys changes nothing. *)
Lemma dict_set_fresh k v d : k ∉ d.*1 → dict_set k v d = d ++ [(k, v)].
Proof.
  induction d as [|[k' v'] d IH]; [done|].
  simpl. intros Hk. apply not_elem_of_cons in Hk as [Hne Hk].
  destruct (decide (k = k')); [done|]. by rewrite IH.
Qed.

Lemma dict_of_pairs_app acc ps :
  NoDup (acc ++ ps).*1 →
  fold_left (λ d kv, dict_set kv.1 kv.2 d) ps acc = acc ++ ps.
Proof.
  revert acc. induction ps as [|[k v] ps IH]; intros acc Hnd.
  - by rewrite app_nil_r.
  - simpl. rewrite dict_set_fresh.
    + rewrite IH; rewrite <- app_assoc; done.
    + rewrite fmap_app in Hnd. apply NoDup_app in Hnd as (_ & Hd & _).
      intros Hin. apply (Hd k Hin). simpl. apply list_elem_of_here.
Qed.

Lemma dict_of_pairs_nodup ps : NoDup ps.*1 → dict_of_pairs ps = ps.
Proof. intros H. unfold dict_of_pairs. by rewrite dict_of_pairs_app. Qed.

(** A value of the JSON data model is encodable and is its own
    decoded form. *)
Lemma forallb_impl {A} (f g : A → bool) (l : list A) :
  Forall (λ x, f x = true → g x = true) l →
  forallb f l = true → forallb g l = true.
Proof.
  induction 1 as [|x l Hx _ IH]; [done|]. simpl.
  intros [Hf Hl]%andb_prop. by rewrite Hx, IH.
Qed.

Lemma json_value_encodable v : json_value v = true → encodable v = true.
Proof.
  induction v as [|b|z|s|l IH|l IH|d IH|r] using pyval_rect_nested;
    try done; simpl; intros Hv.
  - by apply (forallb_impl json_value).
  - apply andb_prop in Hv as [Hv _]. revert Hv. apply forallb_impl.
    eapply Forall_impl; [exact IH|]. intros [k x] Hx; simpl in *.
    intros [Hk Hj]%andb_prop. rewrite Hx; [|done]. by destruct k.
Qed.

Lemma json_value_as_json v : json_value v = true → as_json v = v.
Proof.
  induction v as [|b|z|s|l IH|l IH|d IH|r] using pyval_rect_nested;
    try done; simpl; intros Hv.
  - f_equal. induction IH as [|x l Hx _ IHl]; [done|].
    simpl in Hv. apply andb_prop in Hv as [Vx Vl].
    simpl. by rewrite Hx, IHl.
  - apply andb_prop in Hv as [Hv Hnd]. apply bool_decide_eq_true in Hnd.
    assert (map (λ kv : pykey * pyval,
              (KStr (default EmptyString (key_text kv.1)), as_json kv.2)) d = d)
      as ->; [|by rewrite dict_of_pairs_nodup].
    clear Hnd. induction IH as [|[k x] d Hx _ IHd]; [done|].
    simpl in *. apply andb_prop in Hv as [Vx Vd].
    apply andb_prop in Vx as [Vk Vx].
    rewrite Hx, IHd; [|done..]. by destruct k.
Qed.




End JsonFacts.

(** ** Patterns and bulk deletion on the server *)

Module RedisFacts.

Lemma star_matches_all s : glob_tokens_match [GStar] s = true.
Proof. induction s as [|c s IH]; [done|]. simpl in *. by rewrite IH. Qed.

(** A pattern made of plain characters and a final star selects the
    keys that begin with those characters. *)
Lemma glob_match_prefix p key :
  plain p = true → glob_match (p +:+ "*") key = String.prefix p key.
Proof.
  unfold glob_match. revert key. induction p as [|c p IH]; intros key Hp.
  - simpl. rewrite star_matches_all. by destruct key.
  - simpl in Hp. apply andb_prop in Hp as [Hc Hp].
    unfold plain_char in Hc. apply negb_true_iff in Hc.
    apply orb_false_elim in Hc as [Hc H4]. apply orb_false_elim in Hc as [Hc H3].
    apply orb_false_elim in Hc as [H1 H2].
    simpl. rewrite H1, H2, H3, H4. destruct key as [|d key]; simpl; [done|].
    rewrite IH by done. destruct (Ascii.eqb_spec c d) as [->|Hne].
    + by destruct (ascii_dec d d).
    + by destruct (ascii_dec c d).
Qed.

(** Deleting distinct keys that are all present removes each of them
    and counts each once. *)
Lemma del_keys_present ks (σ : gmap string entry) :
  NoDup ks → (∀ k, k ∈ ks → is_Some (σ !! k)) →
  ∃ σ', del_keys ks σ = (Z.of_nat (length ks), σ') ∧
        ∀ k, σ' !! k = if decide (k ∈ ks) then None else σ !! k.
Proof.
  revert σ. induction ks as [|k0 ks IH]; intros σ Hnd Hall.
  - exists σ. split; [done|]. intros k.
    by rewrite decide_False by apply not_elem_of_nil.
  - apply NoDup_cons in Hnd as [Hk0 Hnd].
    destruct (Hall k0 (list_elem_of_here _ _)) as [e He].
    destruct (IH (base.delete k0 σ) Hnd) as (σ' & Hd & Hl).
    { intros k Hk. rewrite lookup_delete_ne by (by intros ->).
      by apply Hall, list_elem_of_further. }
    exists σ'. simpl. rewrite He, Hd. split; [f_equal; lia|].
    intros k. rewrite Hl. destruct (decide (k = k0)) as [->|Hne].
    + rewrite (decide_True (P := k0 ∈ k0 :: ks)) by apply list_elem_of_here.
      destruct (decide (k0 ∈ ks)); [done | apply lookup_delete_eq].
    + rewrite lookup_delete_ne by done.
      destruct (decide (k ∈ ks)) as [Hin|Hin].
      * by rewrite decide_True by by apply list_elem_of_further.
      * rewrite decide_False; [done|]. by intros [?|?]%elem_of_cons.
Qed.

(** The scan yields each matching key of the store once. *)
Lemma matching_spec pattern (σ : gmap string entry) :
  NoDup (matching pattern σ) ∧
  ∀ k, k ∈ matching pattern σ ↔ glob_match pattern k = true ∧ is_Some (σ !! k).
Proof.
  unfold matching. split.
  - apply NoDup_filter, NoDup_fst_map_to_list.
  - intros k. rewrite list_elem_of_filter, list_elem_of_fmap.
    split.
    + intros [Hm ([k' e] & -> & Hin)]. apply elem_of_map_to_list in Hin. by eauto.
    + intros [Hm [e He]]. split; [done|]. exists (k, e).
      split; [done | by apply elem_of_map_to_list].
Qed.

End RedisFacts.

(** ** The primitives of [CacheService] *)

Module CacheFacts.
Import Json JsonFacts CacheService.

Lemma fault_free_S n w :
  fault_free (S n) w = true →
  next_fault w = false ∧
  ∀ w', w_faults w' = tail (w_faults w) → fault_free n w' = true.
Proof.
  unfold fault_free, next_fault. destruct (w_faults w) as [|[] fs]; simpl.
  - split; [done|]. intros w' ->. by destruct n.
  - done.
  - split; [done|]. by intros w' ->.
Qed.

(** A successful [set] writes the encoded value with the resolved
    time to live and touches nothing else on the server. *)
Lemma set_stores key value ttl w t :
  dumps value = Ok t → 0 < ttl_or ttl MEDIUM_TTL → next_fault w = false →
  ∃ w', set key value ttl w = (Ok true, w') ∧
        w_store w' = <[key := Entry t (ttl_or ttl MEDIUM_TTL)]> (w_store w) ∧
        w_outbox w' = w_outbox w ∧
        w_faults w' = tail (w_faults w).
Proof.
  intros Hd Ht Hf. destruct w as [pool made store outbox faults log].
  run. rewrite Hd.
  assert ((ttl_or ttl MEDIUM_TTL <=? 0) = false) as Hle by lia.
  destruct pool, faults as [|[] fs]; simpl in *; try done;
    rewrite Hle; by eexists.
Qed.

(** Whatever [set] does, success means the entry is there. *)
Lemma set_true_inv key value ttl w w' :
  set key value ttl w = (Ok true, w') →
  ∃ t, dumps value = Ok t ∧
       w_store w' = <[key := Entry t (ttl_or ttl MEDIUM_TTL)]> (w_store w) ∧
       w_outbox w' = w_outbox w ∧
       0 < ttl_or ttl MEDIUM_TTL.
Proof.
  destruct w as [pool made store outbox faults log]. run.
  destruct (dumps value) as [t|e] eqn:Hd;
    destruct pool, faults as [|[] fs]; simpl; try done;
    destruct (ttl_or ttl MEDIUM_TTL <=? 0) eqn:Hle; try done;
    intros [= <-]; exists t; simpl; repeat split; try done; lia.
Qed.

(** A [get] that reaches the server decodes what is stored there. *)
Lemma get_reads key w c t ttl v :
  next_fault w = false →
  w_store w !! key = Some (Entry (String c t) ttl) →
  loads (String c t) = Ok v →
  ∃ w', get key w = (Ok v, w') ∧ w_store w' = w_store w ∧
        w_outbox w' = w_outbox w.
Proof.
  intros Hf Hk Hl. destruct w as [pool made store outbox faults log].
  run. destruct pool, faults as [|[] fs]; simpl in *; try done;
    rewrite Hk; simpl; rewrite Hl; by eexists.
Qed.

Lemma get_missing key w :
  w_store w !! key = None →
  ∃ w', get key w = (Ok PNone, w') ∧ w_store w' = w_store w ∧
        w_outbox w' = w_outbox w.
Proof.
  intros Hk. destruct w as [pool made store outbox faults log].
  run. destruct pool, faults as [|[] fs]; simpl in *;
    rewrite ?Hk; simpl; by eexists.
Qed.

(** [set] followed by [get], for any value the encoder accepts. *)
Lemma set_then_get key value ttl w :
  encodable value = true → 0 < ttl_or ttl MEDIUM_TTL → fault_free 2 w = true →
  ∃ w1 w2,
    set key value ttl w = (Ok true, w1) ∧
    w_store w1 !! key = Some (Entry (text value) (ttl_or ttl MEDIUM_TTL)) ∧
    get key w1 = (Ok (as_json value), w2).
Proof.
  intros Ev Ht Hf. apply fault_free_S in Hf as [Hf1 Hf2].
  destruct (set_stores key value ttl w (text value)) as (w1 & Hs & Hst & _ & Hfs);
    [by unfold dumps; rewrite Ev | done | done |].
  apply Hf2, fault_free_S in Hfs as [Hf3 _].
  destruct (text_start value) as (c & t & Hc & _).
  destruct (get_reads key w1 c t (ttl_or ttl MEDIUM_TTL) (as_json value))
    as (w2 & Hg & _); [done | | | ].
  - by rewrite Hst, lookup_insert_eq, Hc.
  - rewrite <- Hc. by apply loads_text.
  - exists w1, w2. by rewrite Hst, lookup_insert_eq.
Qed.

(** A stored JSON [null] reads as [None], with or without a fault. *)
Lemma get_null key w ttl :
  w_store w !! key = Some (Entry "null" ttl) →
  ∃ w', get key w = (Ok PNone, w').
Proof.
  intros Hk. destruct w as [pool made store outbox faults log].
  run. destruct pool, faults as [|[] fs]; simpl in *;
    rewrite ?Hk; simpl; by eexists.
Qed.

(** A [publish] that reaches the server appends one message. *)
Lemma publish_sends channel message w :
  encodable (PDict message) = true → next_fault w = false →
  ∃ w', PubSubService.publish channel message w = (Ok PNone, w') ∧
        w_outbox w' = w_outbox w ++ [(channel, text (PDict message))] ∧
        w_store w' = w_store w.
Proof.
  intros Ev Hf. destruct w as [pool made store outbox faults log].
  assert (dumps (PDict message) = Ok (text (PDict message))) as Hd
    by (unfold dumps; by rewrite Ev).
  clear Ev. run. rewrite Hd.
  destruct pool, faults as [|[] fs]; simpl in *; try done; by eexists.
Qed.


Lemma set_false_keeps key value ttl w w' :
  set key value ttl w = (Ok false, w') →
  w_store w' = w_store w ∧ w_outbox w' = w_outbox w.
Proof.
  destruct w as [pool made store outbox faults log]. run.
  destruct (dumps value) as [t|e] eqn:Hd;
    destruct pool, faults as [|[] fs]; simpl; try done;
    try (destruct (ttl_or ttl MEDIUM_TTL <=? 0) eqn:Hle; try done);
    by intros [= <-].
Qed.


Lemma publish_unencodable channel message w :
  encodable (PDict message) = false →
  ∃ w', PubSubService.publish channel message w = (Ok PNone, w') ∧
        w_store w' = w_store w ∧ w_outbox w' = w_outbox w.
Proof.
  intros Ev. destruct w as [pool made store outbox faults log].
  assert (dumps (PDict message) = Err TypeError) as Hd
    by (unfold dumps; by rewrite Ev).
  clear Ev. run. rewrite Hd. destruct pool; simpl; by eexists.
Qed.

(** [delete_pattern] on a working transport removes the keys matching
    the pattern, every one of them and no other, and returns how many
    they were. *)
Lemma delete_pattern_removes pattern w :
  fault_free 2 w = true →
  ∃ w', delete_pattern pattern w =
          (Ok (Z.of_nat (length (matching pattern (w_store w)))), w') ∧
        w_outbox w' = w_outbox w ∧
        ∀ k, w_store w' !! k =
               if glob_match pattern k then None else w_store w !! k.
Proof.
  intros Hf. destruct (RedisFacts.matching_spec pattern (w_store w)) as [Hnd Hin].
  destruct (RedisFacts.del_keys_present _ (w_store w) Hnd) as (σ' & Hd & Hl).
  { intros k Hk. by apply Hin in Hk as [_ ?]. }
  assert (∀ k, σ' !! k = if glob_match pattern k then None else w_store w !! k)
    as Hl'.
  { intros k. rewrite Hl. destruct (glob_match pattern k) eqn:Hm.
    - destruct (decide (k ∈ matching pattern (w_store w))) as [|Hn]; [done|].
      destruct (w_store w !! k) as [e|] eqn:He; [|done].
      exfalso. apply Hn, Hin. by eauto.
    - rewrite decide_False; [done|]. intros [? _]%Hin. congruence. }
  destruct w as [pool made store outbox faults log]. run.
  destruct (matching pattern store) as [|k0 ks] eqn:Hks.
  - destruct pool, faults as [|[] fs]; simpl in *; try done;
      rewrite ?Hks; simpl;
      (eexists; split; [done|]; split; [done|]; simpl;
       intros k; rewrite <- Hl'; by injection Hd as <-).
  - destruct pool, faults as [|[] [|[] fs]]; simpl in *; try done;
      rewrite ?Hks; simpl; rewrite Hd;
      (eexists; split; [done|]; split; [done|]; simpl; done).
Qed.

(** [invalidate_products] clears the whole [products:] name space and
    nothing outside it. *)
Lemma invalidate_products_clears_prefix w :
  fault_free 2 w = true →
  ∃ w', invalidate_products w = (Ok PNone, w') ∧
        ∀ k, w_store w' !! k =
               if String.prefix "products:" k then None else w_store w !! k.
Proof.
  intros Hf. destruct (delete_pattern_removes "products:*" w Hf) as (w' & Hd & _ & Hl).
  exists w'. split.
  - unfold invalidate_products, bind, ret.
    change (PREFIX_PRODUCTS +:+ "*") with "products:*". by rewrite Hd.
  - intros k. rewrite Hl.
    by rewrite <- (RedisFacts.glob_match_prefix "products:" k eq_refl).
Qed.

End CacheFacts.

(** ** First-time callers of [get_redis] *)

Module LoopFacts.
Import Loop.

Lemma reached_initially m n w :
  redis_pool w = None → w_made w = m → reached m n (w, replicate n Waiting).
Proof.
  intros Hp Hm. split; simpl; [by rewrite length_replicate | by rewrite Hp].
Qed.

Lemma run_task_reached m n i st : reached m n st → reached m n (run_task i st).
Proof.
  destruct st as [[pool made store outbox faults log] ts].
  intros [Hlen Hst]. unfold run_task, get_redis, set_pool. simpl in *.
  destruct (ts !! i) as [[|r]|] eqn:Hi; [|by split..].
  destruct pool as [r|]; simpl.
  - destruct Hst as (-> & -> & Hall). split; simpl.
    + by rewrite length_insert.
    + repeat split; [done..|]. apply Forall_insert; [done | by right].
  - destruct Hst as (-> & ->). split; simpl.
    + by rewrite length_insert, length_replicate.
    + repeat split; [done..|]. apply Forall_insert; [|by right].
      apply Forall_replicate. by left.
Qed.

Lemma run_task_holds m n i st :
  reached m n st → (i < n)%nat → (run_task i st).2 !! i = Some (Holding m).
Proof.
  destruct st as [[pool made store outbox faults log] ts].
  intros [Hlen Hst] Hi. unfold run_task, get_redis, set_pool. simpl in *.
  destruct (lookup_lt_is_Some_2 ts i ltac:(lia)) as [t Ht]. rewrite Ht.
  destruct t as [|r].
  - destruct pool as [r|]; simpl.
    + destruct Hst as (-> & _). apply list_lookup_insert_eq. lia.
    + destruct Hst as (-> & _). apply list_lookup_insert_eq. lia.
  - simpl. destruct pool as [r'|].
    + destruct Hst as (_ & _ & Hall). rewrite Forall_forall in Hall.
      destruct (Hall (Holding r)) as [|[= ->]]; [|done|done].
      by apply list_elem_of_lookup_2 in Ht.
    + destruct Hst as (_ & ->). apply lookup_replicate in Ht as [? _]. done.
Qed.

Lemma run_task_keeps i j st r :
  st.2 !! j = Some (Holding r) → (run_task i st).2 !! j = Some (Holding r).
Proof.
  destruct st as [w ts]. simpl. intros Hj. unfold run_task. simpl.
  destruct (ts !! i) as [[|r']|] eqn:Hi; [|done..].
  destruct (get_redis w) as [[c|e] w']; simpl; [|done].
  destruct (decide (i = j)) as [->|Hne]; [congruence|].
  by rewrite list_lookup_insert_ne.
Qed.

Lemma run_schedule_reached m n sched st :
  reached m n st → reached m n (run_schedule sched st).
Proof.
  revert st. induction sched as [|i sched IH]; intros st Hst; [done|].
  simpl. apply IH. by apply run_task_reached.
Qed.

Lemma run_schedule_keeps sched j st r :
  st.2 !! j = Some (Holding r) → (run_schedule sched st).2 !! j = Some (Holding r).
Proof.
  revert st. induction sched as [|i sched IH]; intros st Hj; [done|].
  simpl. apply IH. by apply run_task_keeps.
Qed.

Lemma run_schedule_holds m n sched st i :
  reached m n st → (i < n)%nat → i ∈ sched →
  (run_schedule sched st).2 !! i = Some (Holding m).
Proof.
  revert st. induction sched as [|j sched IH]; intros st Hst Hi Hin.
  - by apply elem_of_nil in Hin.
  - simpl. apply elem_of_cons in Hin as [->|Hin].
    + apply run_schedule_keeps. by eapply run_task_holds.
    + apply IH; [by apply run_task_reached | done | done].
Qed.

Lemma reached_made m n st : reached m n st → (w_made st.1 ≤ S m)%nat.
Proof.
  intros [_ Hst]. destruct (redis_pool st.1); [destruct Hst as (_ & -> & _) |
    destruct Hst as (-> & _)]; lia.
Qed.

(** C8. Let [n] tasks call [get_redis] for the first time, resumed by
    the event loop in any order.  At no point has more than one client
    object been built; once every task has been resumed exactly one has
    been built, every task holds that same object, and any later call
    returns it without building another. *)
Theorem one_connection_for_all_callers (n : nat) (sched : list nat) (w : world) :
  redis_pool w = None → (0 < n)%nat → (∀ i, (i < n)%nat → i ∈ sched) →
  (∀ prefix, (w_made (run_schedule prefix (w, replicate n Waiting)).1
                ≤ S (w_made w))%nat) ∧
  let st := run_schedule sched (w, replicate n Waiting) in
  w_made st.1 = S (w_made w) ∧
  st.2 = replicate n (Holding (w_made w)) ∧
  get_redis st.1 = (Ok (w_made w), st.1).
Proof.
  intros Hp Hn Hall.
  pose proof (reached_initially (w_made w) n w Hp eq_refl) as H0.
  split.
  - intros prefix. eapply reached_made, run_schedule_reached, H0.
  - pose proof (run_schedule_reached _ _ sched _ H0) as Hr.
    pose proof (λ i Hi, run_schedule_holds _ _ sched _ i H0 Hi (Hall i Hi)) as Hh.
    simpl. set (st := run_schedule sched (w, replicate n Waiting)) in *.
    destruct Hr as [Hlen Hst].
    assert (st.2 = replicate n (Holding (w_made w))) as Hts.
    { apply list_eq. intros i. destruct (decide (i < n)%nat) as [Hi|Hi].
      - rewrite Hh by done. symmetry. by apply lookup_replicate.
      - rewrite !lookup_ge_None_2; [done | rewrite length_replicate; lia | lia]. }
    destruct (redis_pool st.1) as [r|] eqn:Hpool.
    + destruct Hst as (-> & Hm & _). repeat split; [done | done |].
      unfold get_redis. by rewrite Hpool.
    + destruct Hst as (_ & Hw). rewrite Hts in Hw.
      destruct n as [|n']; [lia | discriminate Hw].
Qed.

Lemma one_connection_for_all_callers_witness :
  (∀ prefix, (w_made (run_schedule prefix
                (World None 0 ∅ [] [] [], replicate 3 Waiting)).1 ≤ 1)%nat) ∧
  let st := run_schedule [2; 0; 2; 1]%nat (World None 0 ∅ [] [] [], replicate 3 Waiting) in
  w_made st.1 = 1%nat ∧
  st.2 = replicate 3 (Holding 0) ∧
  get_redis st.1 = (Ok 0%nat, st.1).
Proof.
  apply (one_connection_for_all_callers 3 [2; 0; 2; 1]%nat (World None 0 ∅ [] [] []));
    [reflexivity | lia |].
  intros i Hi.
  destruct i as [|[|[|i]]]; [| | | lia];
    repeat first [apply list_elem_of_here | apply list_elem_of_further].
Defined.

End LoopFacts.

(** ** Claims about the cache *)

Module Claims.
Import Json JsonFacts CacheService CacheFacts Samples.



(** Nothing escapes a [try] block whose handler returns normally. *)
Lemma try_except_total {A} (body : M A) (handler : exn → M A) :
  (∀ e w, ∃ a w', handler e w = (Ok a, w')) →
  ∀ w, ∃ a w', try_except body handler w = (Ok a, w').
Proof.
  intros Hh w. unfold try_except. destruct (body w) as [[a|e] w']; eauto.
Qed.

Lemma get_total key w : ∃ r w', get key w = (Ok r, w').
Proof. apply try_except_total. intros e w0. by eexists _, _. Qed.

Lemma set_total key value ttl w : ∃ b w', set key value ttl w = (Ok b, w').
Proof. apply try_except_total. intros e w0. by eexists _, _. Qed.

Lemma delete_total key w : ∃ b w', CacheService.delete key w = (Ok b, w').
Proof. apply try_except_total. intros e w0. by eexists _, _. Qed.

Lemma delete_pattern_total pattern w :
  ∃ n w', delete_pattern pattern w = (Ok n, w').
Proof. apply try_except_total. intros e w0. by eexists _, _. Qed.

Lemma publish_total channel message w :
  ∃ r w', PubSubService.publish channel message w = (Ok r, w').
Proof. apply try_except_total. intros e w0. by eexists _, _. Qed.

(** C2. No operation of the layer ever raises; and when the transport
    fails on the command an operation sends, [get] returns [None],
    [set] and [delete] return [False], [delete_pattern] returns [0]
    (whether the scan or the bulk delete is the command that fails) and
    [publish] returns normally, each leaving keys and messages as they
    were. *)
Theorem transport_failure_contained
    (w : world) (key : string) (value : pyval) (ttl : option Z)
    (pattern channel : string) (message : list (pykey * pyval)) :
  ((∃ r w', get key w = (Ok r, w')) ∧
   (∃ b w', set key value ttl w = (Ok b, w')) ∧
   (∃ b w', CacheService.delete key w = (Ok b, w')) ∧
   (∃ n w', delete_pattern pattern w = (Ok n, w')) ∧
   (∃ r w', PubSubService.publish channel message w = (Ok r, w'))) ∧
  (next_fault w = true →
   (∃ w', get key w = (Ok PNone, w') ∧ same_data w w') ∧
   (∃ w', set key value ttl w = (Ok false, w') ∧ same_data w w') ∧
   (∃ w', CacheService.delete key w = (Ok false, w') ∧ same_data w w') ∧
   (∃ w', delete_pattern pattern w = (Ok 0, w') ∧ same_data w w') ∧
   (∃ w', PubSubService.publish channel message w = (Ok PNone, w') ∧
          same_data w w')) ∧
  (∀ fs, w_faults w = false :: true :: fs →
   ∃ w', delete_pattern pattern w = (Ok 0, w') ∧ same_data w w').
Proof.
  split; [|split].
  - auto using get_total, set_total, delete_total, delete_pattern_total,
      publish_total.
  - intros Hf. destruct w as [pool made store outbox faults log].
    unfold same_data. run. destruct faults as [|[] fs]; [done | | done].
    repeat split.
    + destruct pool; simpl; by eexists.
    + destruct (dumps value), pool; simpl; by eexists.
    + destruct pool; simpl; by eexists.
    + destruct pool; simpl; by eexists.
    + destruct (dumps (PDict message)), pool; simpl; by eexists.
  - intros fs Hfs. destruct w as [pool made store outbox faults log].
    unfold same_data. run. subst faults.
    destruct pool; simpl;
      (destruct (matching pattern store) as [|k ks]; simpl; by eexists).
Qed.

Lemma transport_failure_contained_witness :
  next_fault outage = true ∧
  (∃ w', get "products:all" outage = (Ok PNone, w') ∧ same_data outage w') ∧
  (∃ w', set "products:all" (PList []) None outage = (Ok false, w') ∧
         same_data outage w') ∧
  (∃ w', CacheService.delete "products:all" outage = (Ok false, w') ∧
         same_data outage w') ∧
  (∃ w', delete_pattern "products:*" outage = (Ok 0, w') ∧ same_data outage w') ∧
  (∃ w', PubSubService.publish "channel:sync" [] outage = (Ok PNone, w') ∧
         same_data outage w').
Proof.
  split; [reflexivity|].
  apply (proj1 (proj2 (transport_failure_contained outage "products:all"
           (PList []) None "products:*" "channel:sync" []))).
  reflexivity.
Defined.

(** A store holding exactly the four keys of the scenario. *)
Lemma four_keys_store (σ : gmap string entry) :
  dom σ = {[ "products:all"; "products:1"; "products:2"; "categories:tree" ]} →
  ∃ e1 e2 e3 e4,
    σ = <["products:all" := e1]> (<["products:1" := e2]>
          (<["products:2" := e3]> (<["categories:tree" := e4]> ∅))).
Proof.
  intros Hdom.
  assert (∀ k, is_Some (σ !! k) ↔
            k = "products:all" ∨ k = "products:1" ∨ k = "products:2" ∨
            k = "categories:tree") as Hk.
  { intros k. rewrite <- elem_of_dom, Hdom.
    rewrite !elem_of_union, !elem_of_singleton. tauto. }
  destruct (proj2 (Hk "products:all")) as [e1 H1]; [tauto|].
  destruct (proj2 (Hk "products:1")) as [e2 H2]; [tauto|].
  destruct (proj2 (Hk "products:2")) as [e3 H3]; [tauto|].
  destruct (proj2 (Hk "categories:tree")) as [e4 H4]; [tauto|].
  exists e1, e2, e3, e4. apply map_eq. intros k.
  destruct (decide (k = "products:all")) as [->|N1];
    [by rewrite lookup_insert_eq|rewrite lookup_insert_ne by done].
  destruct (decide (k = "products:1")) as [->|N2];
    [by rewrite lookup_insert_eq|rewrite lookup_insert_ne by done].
  destruct (decide (k = "products:2")) as [->|N3];
    [by rewrite lookup_insert_eq|rewrite lookup_insert_ne by done].
  destruct (decide (k = "categories:tree")) as [->|N4];
    [by rewrite lookup_insert_eq|rewrite lookup_insert_ne by done].
  rewrite lookup_empty. apply eq_None_not_Some. rewrite Hk. tauto.
Qed.

(** C3, as amended.  On a store holding exactly [products:all],
    [products:1], [products:2] and [categories:tree], with the
    transport working, [delete_pattern("products:*")] returns 3;
    [invalidate_products()] makes that call, removes the three product
    keys, leaves [categories:tree] as it was, and itself returns
    [None]. *)
Theorem invalidate_products_four_keys (w : world) :
  dom (w_store w) =
    {[ "products:all"; "products:1"; "products:2"; "categories:tree" ]} →
  fault_free 2 w = true →
  ∃ w', delete_pattern "products:*" w = (Ok 3, w') ∧
        invalidate_products w = (Ok PNone, w') ∧
        dom (w_store w') = {[ "categories:tree" ]} ∧
        w_store w' !! "categories:tree" = w_store w !! "categories:tree".
Proof.
  intros Hdom Hf. destruct w as [pool made store outbox faults log].
  simpl in Hdom. destruct (four_keys_store store Hdom) as (e1 & e2 & e3 & e4 & ->).
  clear Hdom. unfold fault_free in Hf. simpl in Hf.
  destruct pool, faults as [|[] [|[] fs]]; try done;
    eexists; (split; [vm_compute; reflexivity|]);
    (split; [vm_compute; reflexivity|]); simpl;
    (split; vm_compute; reflexivity).
Qed.

Lemma invalidate_products_four_keys_witness :
  ∃ w', delete_pattern "products:*" catalog = (Ok 3, w') ∧
        invalidate_products catalog = (Ok PNone, w') ∧
        dom (w_store w') = {[ "categories:tree" ]} ∧
        w_store w' !! "categories:tree" = w_store catalog !! "categories:tree".
Proof.
  apply (invalidate_products_four_keys catalog); vm_compute; reflexivity.
Defined.

(** C3 as stated fails: on that store [invalidate_products()] does not
    return the count 3; it returns [None]. *)
Lemma invalidate_products_returns_none :
  dom (w_store catalog) =
    {[ "products:all"; "products:1"; "products:2"; "categories:tree" ]} ∧
  (invalidate_products catalog).1 = Ok PNone ∧
  ¬ ∃ w', invalidate_products catalog = (Ok (PInt 3), w').
Proof.
  split; [vm_compute; reflexivity|]. split; [vm_compute; reflexivity|].
  intros [w' H]. apply (f_equal fst) in H. vm_compute in H. discriminate H.
Qed.

(** C4. On a working transport [notify_product_change] appends exactly
    one message to [channel:products], the JSON object with members
    [product_id] and [action]; [notify_order_change] appends exactly one
    message to [channel:orders], the JSON object with members
    [order_id], [action] and [user_id], the last being [null] when the
    argument is omitted. *)
Theorem notification_shapes
    (w : world) (product_id order_id action : string) (user_id : option string) :
  next_fault w = false →
  (∃ w' t,
     PubSubService.notify_product_change product_id action w = (Ok PNone, w') ∧
     w_outbox w' = w_outbox w ++ [("channel:products", t)] ∧
     t = "{" +:+ quote "product_id" +:+ ": " +:+ quote product_id +:+ ", " +:+
         quote "action" +:+ ": " +:+ quote action +:+ "}" ∧
     loads t = Ok (PDict [(KStr "product_id", PStr product_id);
                          (KStr "action", PStr action)])) ∧
  (∃ w' t,
     PubSubService.notify_order_change order_id action user_id w = (Ok PNone, w') ∧
     w_outbox w' = w_outbox w ++ [("channel:orders", t)] ∧
     t = "{" +:+ quote "order_id" +:+ ": " +:+ quote order_id +:+ ", " +:+
         quote "action" +:+ ": " +:+ quote action +:+ ", " +:+
         quote "user_id" +:+ ": " +:+
         match user_id with Some u => quote u | None => "null" end +:+ "}" ∧
     loads t = Ok (PDict [(KStr "order_id", PStr order_id);
                          (KStr "action", PStr action);
                          (KStr "user_id",
                           match user_id with Some u => PStr u | None => PNone end)])).
Proof.
  intros Hf. split.
  - set (m := [(KStr "product_id", PStr product_id); (KStr "action", PStr action)]).
    destruct (publish_sends "channel:products" m w eq_refl Hf) as (w' & Hp & Ho & _).
    exists w', (text (PDict m)). repeat split.
    + unfold PubSubService.notify_product_change, bind, ret.
      fold m. unfold PubSubService.CHANNEL_PRODUCTS. by rewrite Hp.
    + done.
    + apply loads_text. done.
  - set (m := [(KStr "order_id", PStr order_id); (KStr "action", PStr action);
               (KStr "user_id", from_option PStr PNone user_id)]).
    assert (encodable (PDict m) = true) as Ev by (by destruct user_id).
    destruct (publish_sends "channel:orders" m w Ev Hf) as (w' & Hp & Ho & _).
    exists w', (text (PDict m)). repeat split.
    + unfold PubSubService.notify_order_change, bind, ret.
      fold m. unfold PubSubService.CHANNEL_ORDERS. by rewrite Hp.
    + done.
    + by destruct user_id.
    + rewrite loads_text by done. by destruct user_id.
Qed.

Lemma notification_shapes_witness :
  (∃ w' t,
     PubSubService.notify_product_change "p1" "updated" idle = (Ok PNone, w') ∧
     w_outbox w' = w_outbox idle ++ [("channel:products", t)] ∧
     t = "{" +:+ quote "product_id" +:+ ": " +:+ quote "p1" +:+ ", " +:+
         quote "action" +:+ ": " +:+ quote "updated" +:+ "}" ∧
     loads t = Ok (PDict [(KStr "product_id", PStr "p1");
                          (KStr "action", PStr "updated")])).
Proof.
  apply (proj1 (notification_shapes idle "p1" "o1" "updated" None eq_refl)).
Defined.




(** C6. [set_last_sync_timestamp(table, timestamp)] stores the decimal
    text of the timestamp under [sync:timestamp:{table}] with the TTL
    3600, which its signature gives the caller no way to change, and
    [get_last_sync_timestamp(table)] right after it returns that integer;
    so it does on any store where that entry is present, and on a store
    without the key it returns [None]. *)
Theorem sync_timestamp_bookkeeping (table : string) (timestamp : Z) (w : world) :
  (fault_free 2 w = true →
   ∃ w1 w2,
     set_last_sync_timestamp table timestamp w = (Ok PNone, w1) ∧
     w_store w1 !! ("sync:timestamp:" +:+ table) =
       Some (Entry (int_text timestamp) 3600) ∧
     get_last_sync_timestamp table w1 = (Ok (PInt timestamp), w2)) ∧
  (next_fault w = false →
   (∃ ttl, w_store w !! ("sync:timestamp:" +:+ table) =
             Some (Entry (int_text timestamp) ttl)) →
   ∃ w2, get_last_sync_timestamp table w = (Ok (PInt timestamp), w2)) ∧
  (w_store w !! ("sync:timestamp:" +:+ table) = None →
   ∃ w2, get_last_sync_timestamp table w = (Ok PNone, w2)).
Proof.
  split; [|split].
  - intros Hf.
    destruct (set_then_get ("sync:timestamp:" +:+ table) (PInt timestamp)
                (Some LONG_TTL) w) as (w1 & w2 & Hs & Hst & Hg); [done..|].
    exists w1, w2. repeat split; [|done|done].
    unfold set_last_sync_timestamp, bind, ret.
    change (PREFIX_SYNC +:+ "timestamp:" +:+ table)
      with ("sync:timestamp:" +:+ table). by rewrite Hs.
  - intros Hf [ttl Hk].
    destruct (int_text_start timestamp) as (c & t & Hc & _).
    destruct (get_reads ("sync:timestamp:" +:+ table) w c t ttl (PInt timestamp))
      as (w2 & Hg & _); [done | by rewrite <- Hc | | by exists w2].
    rewrite <- Hc. by apply (loads_text (PInt timestamp)).
  - intros Hk.
    destruct (get_missing ("sync:timestamp:" +:+ table) w Hk) as (w2 & Hg & _).
    by exists w2.
Qed.

Lemma sync_timestamp_bookkeeping_witness :
  (∃ w1 w2,
     set_last_sync_timestamp "orders" 1700000000 idle = (Ok PNone, w1) ∧
     w_store w1 !! "sync:timestamp:orders" = Some (Entry "1700000000" 3600) ∧
     get_last_sync_timestamp "orders" w1 = (Ok (PInt 1700000000), w2)) ∧
  (∃ w2, get_last_sync_timestamp "orders"
           (set_last_sync_timestamp "orders" 1700000000 idle).2 =
         (Ok (PInt 1700000000), w2)) ∧
  (∃ w2, get_last_sync_timestamp "orders" idle = (Ok PNone, w2)).
Proof.
  split; [|split].
  - apply (proj1 (sync_timestamp_bookkeeping "orders" 1700000000 idle)).
    reflexivity.
  - apply (proj1 (proj2 (sync_timestamp_bookkeeping "orders" 1700000000
             (set_last_sync_timestamp "orders" 1700000000 idle).2)));
      [reflexivity | by exists 3600].
  - apply (proj2 (proj2 (sync_timestamp_bookkeeping "orders" 1700000000 idle))).
    reflexivity.
Defined.






(** C10. After a successful [set(k, None)] the key holds the text
    [null], and for as long as it does (the entry not yet expired)
    [get(k)] returns [None], which is also what [get(k)] returns when the
    key is not in the cache at all. *)
Theorem cached_none_reads_as_absent (k : string) (ttl : option Z) (w w1 : world) :
  set k PNone ttl w = (Ok true, w1) →
  (∃ t, w_store w1 !! k = Some (Entry "null" t)) ∧
  (∀ w2, w_store w2 !! k = w_store w1 !! k → ∃ w3, get k w2 = (Ok PNone, w3)) ∧
  (∀ w2, w_store w2 !! k = None → ∃ w3, get k w2 = (Ok PNone, w3)).
Proof.
  intros Hs.
  destruct (set_true_inv k PNone ttl w w1 Hs) as (t & Hd & Hst & _).
  injection Hd as <-.
  assert (w_store w1 !! k = Some (Entry "null" (ttl_or ttl MEDIUM_TTL))) as Hn
    by (by rewrite Hst, lookup_insert_eq).
  split; [by eexists|]. split.
  - intros w2 Hk. apply (get_null k w2 (ttl_or ttl MEDIUM_TTL)). by rewrite Hk.
  - intros w2 Hk. destruct (get_missing k w2 Hk) as (w3 & Hg & _). by exists w3.
Qed.

Lemma cached_none_reads_as_absent_witness :
  (∃ t, w_store (set "user:9" PNone None idle).2 !! "user:9" =
          Some (Entry "null" t)) ∧
  (∃ w3, get "user:9" (set "user:9" PNone None idle).2 = (Ok PNone, w3)) ∧
  (∃ w3, get "user:9" idle = (Ok PNone, w3)).
Proof.
  destruct (cached_none_reads_as_absent "user:9" None idle
              (set "user:9" PNone None idle).2 eq_refl) as (H1 & H2 & H3).
  split; [exact H1|]. split; [apply H2 | apply H3]; reflexivity.
Defined.

End Claims.

(** * Further properties of the code *)

Module Coverage.
Import Json JsonFacts CacheService CacheFacts Samples Domains Scenarios.

(** ** Deleting *)

(** A [delete] that reaches the server removes the key and answers
    [True] whether or not the key was there. *)
Lemma delete_removes key w :
  next_fault w = false →
  ∃ w', CacheService.delete key w = (Ok true, w') ∧
        w_store w' = base.delete key (w_store w) ∧
        w_outbox w' = w_outbox w ∧
        w_faults w' = tail (w_faults w).
Proof.
  intros Hf. destruct w as [pool made store outbox faults log]. run.
  destruct pool, faults as [|[] fs]; simpl in *; try done;
    (destruct (store !! key) as [e|] eqn:He; simpl;
     eexists; (split; [reflexivity|]); simpl;
     rewrite ?(delete_id store key He); done).
Qed.



(** Bulk invalidation by a prefix without pattern characters. *)
Lemma invalidate_by_prefix p w :
  plain p = true → fault_free 2 w = true →
  ∃ w', (delete_pattern (p +:+ "*") ;;; ret PNone) w = (Ok PNone, w') ∧
        w_outbox w' = w_outbox w ∧
        ∀ k, w_store w' !! k =
               if String.prefix p k then None else w_store w !! k.
Proof.
  intros Hp Hf.
  destruct (delete_pattern_removes (p +:+ "*") w Hf) as (w' & Hd & Ho & Hl).
  exists w'. unfold bind, ret. rewrite Hd. repeat split; [done|].
  intros k. by rewrite Hl, RedisFacts.glob_match_prefix.
Qed.

Lemma invalidators_shape p inv :
  (p, inv) ∈ invalidators →
  plain p = true ∧ p ∈ prefixes ∧ inv = (delete_pattern (p +:+ "*") ;;; ret PNone).
Proof.
  unfold invalidators, prefixes. rewrite !elem_of_cons, elem_of_nil.
  intros [H|[H|[H|[H|[H|[]]]]]]; injection H as -> ->;
    (split; [reflexivity|]; split; [|reflexivity]);
    rewrite ?elem_of_cons; auto 10.
Qed.

(** X2. Each of the five [invalidate_*] helpers, on a working
    transport, removes every key that begins with its prefix, keeps
    every other key as it was, publishes nothing and returns [None]. *)
Theorem invalidation_clears_its_namespace (p : string) (inv : M pyval) (w : world) :
  (p, inv) ∈ invalidators → fault_free 2 w = true →
  ∃ w', inv w = (Ok PNone, w') ∧
        w_outbox w' = w_outbox w ∧
        ∀ k, w_store w' !! k =
               if String.prefix p k then None else w_store w !! k.
Proof.
  intros Hin Hf. destruct (invalidators_shape p inv Hin) as (Hp & _ & ->).
  by apply invalidate_by_prefix.
Qed.

Lemma invalidation_clears_its_namespace_witness :
  ∃ w', invalidate_product_brands stocked = (Ok PNone, w') ∧
        w_outbox w' = w_outbox stocked ∧
        ∀ k, w_store w' !! k =
               if String.prefix "product_brands:" k then None
               else w_store stocked !! k.
Proof.
  apply (invalidation_clears_its_namespace PREFIX_PRODUCT_BRANDS
           invalidate_product_brands stocked); [|reflexivity].
  do 4 apply list_elem_of_further. apply list_elem_of_here.
Defined.

(** X3. No bulk invalidation reaches into another name space: a key
    built on any other declared prefix is left as it was, whatever its
    suffix ([products:] and [product_brands:] included). *)
Theorem invalidation_spares_other_namespaces
    (p q suffix : string) (inv : M pyval) (w : world) :
  (p, inv) ∈ invalidators → q ∈ prefixes → q ≠ p → fault_free 2 w = true →
  ∃ w', inv w = (Ok PNone, w') ∧
        w_store w' !! (q +:+ suffix) = w_store w !! (q +:+ suffix).
Proof.
  intros Hin Hq Hne Hf. destruct (invalidators_shape p inv Hin) as (Hp & Hpp & ->).
  destruct (invalidate_by_prefix p w Hp Hf) as (w' & Hi & _ & Hl).
  exists w'. split; [done|]. rewrite Hl.
  assert (String.prefix p (q +:+ suffix) = false) as ->; [|done].
  clear -Hin Hq Hne. apply invalidators_shape in Hin as (_ & Hp & _).
  unfold prefixes in *. rewrite !elem_of_cons, elem_of_nil in Hp, Hq.
  destruct Hp as [->|[->|[->|[->|[->|[->|[->|[->|[]]]]]]]]];
    destruct Hq as [->|[->|[->|[->|[->|[->|[->|[->|[]]]]]]]]];
    first [done | reflexivity].
Qed.

Lemma invalidation_spares_other_namespaces_witness :
  ∃ w', invalidate_products stocked = (Ok PNone, w') ∧
        w_store w' !! "product_brands:all" = w_store stocked !! "product_brands:all".
Proof.
  apply (invalidation_spares_other_namespaces PREFIX_PRODUCTS PREFIX_PRODUCT_BRANDS
           "all" invalidate_products stocked);
    [| | discriminate | reflexivity].
  - apply list_elem_of_here.
  - do 4 apply list_elem_of_further. apply list_elem_of_here.
Defined.

(** X4. On a working transport [delete(key)] answers [True] whether or
    not the key was cached, leaves the store without the key and with
    every other key unchanged, and the [get] that follows misses. *)
Theorem delete_then_get_misses (key : string) (w : world) :
  fault_free 2 w = true →
  ∃ w1 w2,
    CacheService.delete key w = (Ok true, w1) ∧
    w_store w1 = base.delete key (w_store w) ∧
    get key w1 = (Ok PNone, w2).
Proof.
  intros Hf. apply fault_free_S in Hf as [Hf1 Hf2].
  destruct (delete_removes key w Hf1) as (w1 & Hd & Hst & _ & Hfs).
  destruct (get_missing key w1) as (w2 & Hg & _).
  { rewrite Hst. apply lookup_delete_eq. }
  by exists w1, w2.
Qed.

Lemma delete_then_get_misses_witness :
  ∃ w1 w2,
    CacheService.delete "products:1" stocked = (Ok true, w1) ∧
    w_store w1 = base.delete "products:1" (w_store stocked) ∧
    get "products:1" w1 = (Ok PNone, w2).
Proof. apply (delete_then_get_misses "products:1" stocked). reflexivity. Defined.

(** X5. A negative TTL is truthy, so [set] passes it on and the server
    refuses it: [set] answers [False] and nothing is stored; with the
    transport working and the value encodable the warning logged is the
    server's refusal. *)
Theorem negative_ttl_is_refused (key : string) (value : pyval) (t : Z) (w : world) :
  t < 0 →
  ∃ w', set key value (Some t) w = (Ok false, w') ∧
        same_data w w' ∧
        (next_fault w = false → encodable value = true →
         w_log w' = w_log w ++ [("Cache set error", ResponseError)]).
Proof.
  intros Ht. destruct w as [pool made store outbox faults log].
  unfold same_data. run.
  assert ((t =? 0) = false) as -> by lia. assert ((t <=? 0) = true) as Hle by lia.
  destruct (dumps value) as [payload|e] eqn:Hd, pool, faults as [|[] fs]; simpl;
    rewrite ?Hle; eexists; (split; [done|]); (split; [done|]); simpl;
    try done; intros _ Ev; unfold dumps in Hd; by rewrite Ev in Hd.
Qed.

Lemma negative_ttl_is_refused_witness :
  ∃ w', set "cart:7" (PInt 1) (Some (-5)) idle = (Ok false, w') ∧
        same_data idle w' ∧
        (next_fault idle = false → encodable (PInt 1) = true →
         w_log w' = w_log idle ++ [("Cache set error", ResponseError)]).
Proof. apply (negative_ttl_is_refused "cart:7" (PInt 1) (-5) idle). lia. Defined.

(** ** Reading *)



(** ** The connection *)

(** Every primitive leaves the process connected, and builds a client
    only when there was none. *)
Lemma perform_connects c w :
  redis_pool (perform c w) = Some (default (w_made w) (redis_pool w)) ∧
  w_made (perform c w) =
    match redis_pool w with Some _ => w_made w | None => S (w_made w) end.
Proof.
  destruct w as [pool made store outbox faults log].
  destruct c; unfold perform; run; destruct pool; simpl; split_matches; done.
Qed.

(** X7. Whatever calls of the five primitives a process makes, and
    whatever the transport does to them, at most one client object is
    built: none when the process was connected or makes no call, one
    otherwise; and after the first call the process is connected. *)
Theorem calls_share_one_client (cs : list call) (w : world) :
  w_made (perform_all cs w) =
    match redis_pool w, cs with
    | None, _ :: _ => S (w_made w)
    | _, _ => w_made w
    end ∧
  (cs ≠ [] → redis_pool (perform_all cs w) =
             Some (default (w_made w) (redis_pool w))).
Proof.
  revert w. induction cs as [|c cs IH]; intros w.
  - split; [by destruct (redis_pool w) | done].
  - unfold perform_all in *. simpl.
    destruct (perform_connects c w) as [Hp Hm].
    destruct (IH (perform c w)) as [IHm IHp]. rewrite Hp in IHm. rewrite IHm, Hm.
    split; [by destruct (redis_pool w), cs|]. intros _.
    destruct cs as [|c' cs]; [done|]. rewrite IHp by done. rewrite Hp, Hm. simpl.
    by destruct (redis_pool w).
Qed.

Lemma calls_share_one_client_witness :
  redis_pool (perform_all
                [CallGet "products:1"; CallSet "cart:7" PNone None;
                 CallPublish "channel:sync" []] flaky) = Some 0%nat.
Proof.
  apply (proj2 (calls_share_one_client
                  [CallGet "products:1"; CallSet "cart:7" PNone None;
                   CallPublish "channel:sync" []] flaky)).
  discriminate.
Defined.

(** X8. What is cached outlives the client: after [close_redis] the
    process holds no client, a second [close_redis] changes nothing, and
    the [get] that follows builds a new client and reads back what was
    [set] before the close. *)
Theorem cache_survives_reconnect
    (key : string) (value : pyval) (ttl : option Z) (w : world) :
  encodable value = true → 0 < ttl_or ttl MEDIUM_TTL → fault_free 2 w = true →
  ∃ w1 w2 w3,
    set key value ttl w = (Ok true, w1) ∧
    close_redis w1 = (Ok (), w2) ∧
    redis_pool w2 = None ∧
    close_redis w2 = (Ok (), w2) ∧
    get key w2 = (Ok (as_json value), w3) ∧
    redis_pool w3 = Some (w_made w1) ∧
    w_made w3 = S (w_made w1).
Proof.
  intros Ev Ht Hf. apply fault_free_S in Hf as [Hf1 Hf2].
  destruct (set_stores key value ttl w (text value)) as (w1 & Hs & Hst & _ & Hfs);
    [by unfold dumps; rewrite Ev | done | done |].
  apply Hf2, fault_free_S in Hfs as [Hf3 _].
  set (w2 := set_pool None (w_made w1) w1).
  assert (close_redis w1 = (Ok (), w2)) as Hc.
  { unfold close_redis, w2. destruct w1 as [[r|] made store outbox faults log];
      by simpl. }
  destruct (text_start value) as (c & t & Hc' & _).
  destruct (get_reads key w2 c t (ttl_or ttl MEDIUM_TTL) (as_json value))
    as (w3 & Hg & _).
  { exact Hf3. }
  { simpl. by rewrite Hst, lookup_insert_eq, Hc'. }
  { rewrite <- Hc'. by apply loads_text. }
  exists w1, w2, w3. repeat split; try done.
  - pose proof (perform_connects (CallGet key) w2) as [Hp _].
    simpl in Hp. by rewrite Hg in Hp.
  - pose proof (perform_connects (CallGet key) w2) as [_ Hm].
    simpl in Hm. by rewrite Hg in Hm.
Qed.

Lemma cache_survives_reconnect_witness :
  ∃ w1 w2 w3,
    set "user:9" sample_value None stocked = (Ok true, w1) ∧
    close_redis w1 = (Ok (), w2) ∧
    redis_pool w2 = None ∧
    close_redis w2 = (Ok (), w2) ∧
    get "user:9" w2 = (Ok (as_json sample_value), w3) ∧
    redis_pool w3 = Some (w_made w1) ∧
    w_made w3 = S (w_made w1).
Proof.
  apply (cache_survives_reconnect "user:9" sample_value None stocked);
    reflexivity.
Defined.

(** ** The domain helpers *)

(** A helper that stores under [key] with [ttl or LONG_TTL], followed by
    the helper that reads [key]. *)
Lemma long_lived_round_trip key value ttl w :
  json_value value = true → 0 < ttl_or ttl LONG_TTL → fault_free 2 w = true →
  ∃ w1 w2,
    (set key value (Some (ttl_or ttl LONG_TTL)) ;;; ret PNone) w = (Ok PNone, w1) ∧
    w_store w1 !! key = Some (Entry (text value) (ttl_or ttl LONG_TTL)) ∧
    get key w1 = (Ok value, w2).
Proof.
  intros Hv Ht Hf.
  assert (ttl_or (Some (ttl_or ttl LONG_TTL)) MEDIUM_TTL = ttl_or ttl LONG_TTL) as Httl.
  { simpl. destruct (ttl_or ttl LONG_TTL =? 0) eqn:E; [lia | done]. }
  destruct (set_then_get key value (Some (ttl_or ttl LONG_TTL)) w)
    as (w1 & w2 & Hs & Hst & Hg);
    [by apply json_value_encodable | by rewrite Httl | done |].
  rewrite Httl in Hst. rewrite json_value_as_json in Hg by done.
  exists w1, w2. unfold bind, ret. by rewrite Hs.
Qed.

(** X9. The other domain helpers round-trip like the car brands: for
    JSON data and a TTL argument that is omitted, zero or positive,
    [set_all_products], [set_product], [set_categories_tree],
    [set_all_car_models] and [set_all_product_brands] store under
    [products:all], [products:{id}], [categories:tree], [car_models:all]
    and [product_brands:all] with the TTL given (3600 when omitted or
    zero), and the matching getter returns the data unchanged. *)
Theorem domain_helpers_round_trip
    (L : list pyval) (product_id : string) (d : list (pykey * pyval))
    (ttl : option Z) (w : world) :
  forallb json_value L = true → json_value (PDict d) = true →
  0 < ttl_or ttl LONG_TTL → fault_free 2 w = true →
  (∃ w1 w2,
     set_all_products L ttl w = (Ok PNone, w1) ∧
     w_store w1 !! "products:all" =
       Some (Entry (text (PList L)) (ttl_or ttl LONG_TTL)) ∧
     get_all_products w1 = (Ok (PList L), w2)) ∧
  (∃ w1 w2,
     set_product product_id d ttl w = (Ok PNone, w1) ∧
     w_store w1 !! ("products:" +:+ product_id) =
       Some (Entry (text (PDict d)) (ttl_or ttl LONG_TTL)) ∧
     get_product product_id w1 = (Ok (PDict d), w2)) ∧
  (∃ w1 w2,
     set_categories_tree L ttl w = (Ok PNone, w1) ∧
     w_store w1 !! "categories:tree" =
       Some (Entry (text (PList L)) (ttl_or ttl LONG_TTL)) ∧
     get_categories_tree w1 = (Ok (PList L), w2)) ∧
  (∃ w1 w2,
     set_all_car_models L ttl w = (Ok PNone, w1) ∧
     w_store w1 !! "car_models:all" =
       Some (Entry (text (PList L)) (ttl_or ttl LONG_TTL)) ∧
     get_all_car_models w1 = (Ok (PList L), w2)) ∧
  (∃ w1 w2,
     set_all_product_brands L ttl w = (Ok PNone, w1) ∧
     w_store w1 !! "product_brands:all" =
       Some (Entry (text (PList L)) (ttl_or ttl LONG_TTL)) ∧
     get_all_product_brands w1 = (Ok (PList L), w2)).
Proof.
  intros HL Hd Ht Hf. repeat split.
  - apply (long_lived_round_trip "products:all" (PList L)); done.
  - apply (long_lived_round_trip ("products:" +:+ product_id) (PDict d)); done.
  - apply (long_lived_round_trip "categories:tree" (PList L)); done.
  - apply (long_lived_round_trip "car_models:all" (PList L)); done.
  - apply (long_lived_round_trip "product_brands:all" (PList L)); done.
Qed.

Lemma domain_helpers_round_trip_witness :
  (∃ w1 w2,
     set_product "7" [(KStr "sku", PStr "A-7")] (Some 120) idle = (Ok PNone, w1) ∧
     w_store w1 !! "products:7" =
       Some (Entry (text (PDict [(KStr "sku", PStr "A-7")])) 120) ∧
     get_product "7" w1 = (Ok (PDict [(KStr "sku", PStr "A-7")]), w2)).
Proof.
  apply (domain_helpers_round_trip [] "7" [(KStr "sku", PStr "A-7")] (Some 120) idle);
    reflexivity.
Defined.

(** ** What a call leaves alone *)

Lemma del_keys_other ks (σ : gmap string entry) k :
  k ∉ ks → (del_keys ks σ).2 !! k = σ !! k.
Proof.
  revert σ. induction ks as [|k0 ks IH]; intros σ Hk; [done|].
  apply not_elem_of_cons in Hk as [Hne Hk]. simpl.
  destruct (σ !! k0) as [e|] eqn:He.
  - specialize (IH (base.delete k0 σ) Hk).
    destruct (del_keys ks (base.delete k0 σ)) as [n σ']. simpl in *.
    by rewrite IH, lookup_delete_ne.
  - by apply IH.
Qed.

Lemma delete_pattern_store pattern w :
  w_store (delete_pattern pattern w).2 = w_store w ∨
  w_store (delete_pattern pattern w).2 =
    (del_keys (matching pattern (w_store w)) (w_store w)).2.
Proof.
  destruct w as [pool made store outbox faults log].
  unfold delete_pattern, SCAN_MATCH, DEL, get_redis, warning, try_except,
    bind, ret, transmit, set_pool, set_store, set_faults, set_log.
  cbn [w_store w_faults redis_pool w_made w_outbox w_log snd fst].
  destruct pool, faults as [|[] fs];
    cbn [w_store w_faults redis_pool w_made w_outbox w_log snd fst]; auto;
    destruct (matching pattern store) as [|k0 ks];
    cbn [w_store w_faults redis_pool w_made w_outbox w_log snd fst]; auto;
    try (destruct fs as [|[] fs'];
         cbn [w_store w_faults redis_pool w_made w_outbox w_log snd fst]; auto);
    destruct (del_keys (k0 :: ks) store) as [cnt σ'];
    cbn [w_store w_faults redis_pool w_made w_outbox w_log snd fst]; auto.
Qed.

Lemma perform_spares c w k :
  targets c k = false → w_store (perform c w) !! k = w_store w !! k.
Proof.
  intros Ht. destruct w as [pool made store outbox faults log].
  destruct c as [key|key value ttl|key|pattern|channel message];
    unfold perform; simpl in Ht.
  - run. destruct pool; simpl; split_matches; done.
  - apply bool_decide_eq_false in Ht. run.
    destruct pool; simpl; split_matches; simpl;
      by rewrite ?lookup_insert_ne.
  - apply bool_decide_eq_false in Ht.
    pose proof (del_keys_other [key] store k) as Hd.
    rewrite not_elem_of_cons in Hd. specialize (Hd (conj Ht (not_elem_of_nil _))).
    run. destruct pool; simpl; split_matches; simpl in *; done.
  - assert (k ∉ matching pattern store) as Hk.
    { intros Hin. apply RedisFacts.matching_spec in Hin as [Hm _]. congruence. }
    pose proof (del_keys_other (matching pattern store) store k Hk) as Hd.
    destruct (delete_pattern_store pattern
                (World pool made store outbox faults log)) as [->| ->]; done.
  - run. destruct pool; simpl; split_matches; done.
Qed.

Lemma perform_quiet c w :
  is_publish c = false → w_outbox (perform c w) = w_outbox w.
Proof.
  intros Hc. destruct w as [pool made store outbox faults log].
  destruct c; try done; unfold perform; run; destruct pool; simpl;
    split_matches; done.
Qed.



(** X11. The cache never publishes: through any sequence of [get],
    [set], [delete] and [delete_pattern] calls, on any transport, the
    list of published messages stays as it was. *)
Theorem cache_calls_publish_nothing (cs : list call) (w : world) :
  Forall (λ c, is_publish c = false) cs →
  w_outbox (perform_all cs w) = w_outbox w.
Proof.
  intros Hcs. revert w. induction Hcs as [|c cs Hc _ IH]; intros w; [done|].
  unfold perform_all in *. simpl. by rewrite IH, perform_quiet.
Qed.

Lemma cache_calls_publish_nothing_witness :
  w_outbox (perform_all
              [CallSet "products:1" PNone None; CallDelete "products:all";
               CallDeletePattern "*"; CallGet "cart:7"] flaky) = w_outbox flaky.
Proof.
  apply (cache_calls_publish_nothing
           [CallSet "products:1" PNone None; CallDelete "products:all";
            CallDeletePattern "*"; CallGet "cart:7"] flaky).
  repeat constructor.
Defined.

(** X12. The last write wins: of two successful [set]s on one key, the
    entry left is the second one's text with the second one's TTL, and
    [get] returns the second value. *)
Theorem last_write_wins
    (key : string) (v1 v2 : pyval) (ttl1 ttl2 : option Z) (w : world) :
  encodable v1 = true → encodable v2 = true →
  0 < ttl_or ttl1 MEDIUM_TTL → 0 < ttl_or ttl2 MEDIUM_TTL →
  fault_free 3 w = true →
  ∃ w1 w2 w3,
    set key v1 ttl1 w = (Ok true, w1) ∧
    set key v2 ttl2 w1 = (Ok true, w2) ∧
    w_store w2 !! key = Some (Entry (text v2) (ttl_or ttl2 MEDIUM_TTL)) ∧
    get key w2 = (Ok (as_json v2), w3).
Proof.
  intros E1 E2 T1 T2 Hf. apply fault_free_S in Hf as [Hf1 Hf2].
  destruct (set_stores key v1 ttl1 w (text v1)) as (w1 & Hs1 & _ & _ & Hfs);
    [by unfold dumps; rewrite E1 | done | done |].
  apply Hf2 in Hfs.
  destruct (set_then_get key v2 ttl2 w1 E2 T2 Hfs) as (w2 & w3 & Hs2 & Hst & Hg).
  by exists w1, w2, w3.
Qed.

Lemma last_write_wins_witness :
  ∃ w1 w2 w3,
    set "cart:7" (PInt 1) None idle = (Ok true, w1) ∧
    set "cart:7" (PStr "two") (Some 60) w1 = (Ok true, w2) ∧
    w_store w2 !! "cart:7" = Some (Entry (text (PStr "two")) 60) ∧
    get "cart:7" w2 = (Ok (PStr "two"), w3).
Proof.
  apply (last_write_wins "cart:7" (PInt 1) (PStr "two") None (Some 60) idle);
    reflexivity.
Defined.

(** ** Publishing *)

Lemma perform_steady c w :
  reliable w = true →
  reliable (perform c w) = true ∧
  w_outbox (perform c w) = w_outbox w ++ published c.
Proof.
  unfold reliable. intros Hr. destruct w as [pool made store outbox faults log].
  simpl in Hr.
  destruct c as [key|key value ttl|key|pattern|channel message];
    unfold perform, published.
  - run. destruct pool, faults as [|[] fs]; simpl in *; try done;
      split_matches; by rewrite ?app_nil_r.
  - run. destruct pool, faults as [|[] fs]; simpl in *; try done;
      split_matches; by rewrite ?app_nil_r.
  - run. destruct pool, faults as [|[] fs]; simpl in *; try done;
      split_matches; by rewrite ?app_nil_r.
  - unfold delete_pattern, SCAN_MATCH, DEL, get_redis, warning, try_except,
      bind, ret, transmit, set_pool, set_store, set_faults, set_log.
    cbn [w_store w_faults redis_pool w_made w_outbox w_log snd fst].
    destruct pool, faults as [|[] fs]; try done;
      cbn [w_store w_faults redis_pool w_made w_outbox w_log snd fst];
      destruct (matching pattern store) as [|k0 ks];
      cbn [w_store w_faults redis_pool w_made w_outbox w_log snd fst];
      rewrite ?app_nil_r; try done;
      try (destruct fs as [|[] fs']; try done;
           cbn [w_store w_faults redis_pool w_made w_outbox w_log snd fst]);
      destruct (del_keys (k0 :: ks) store) as [cnt σ'];
      cbn [w_store w_faults redis_pool w_made w_outbox w_log snd fst];
      by rewrite ?app_nil_r.
  - run. destruct (dumps (PDict message)) as [t|e];
      destruct pool, faults as [|[] fs]; simpl in *; try done;
      by rewrite ?app_nil_r.
Qed.

(** X13. Messages go out in call order: on a transport that never
    fails, after any sequence of calls the list of published messages
    is the earlier list followed by one message per [publish] of the
    sequence, in the order of the calls, each on its channel with the
    JSON text of its message; a message the encoder rejects is skipped,
    and the cache calls in between add nothing. *)
Theorem publications_keep_call_order (cs : list call) (w : world) :
  reliable w = true →
  w_outbox (perform_all cs w) = w_outbox w ++ concat (map published cs).
Proof.
  revert w. induction cs as [|c cs IH]; intros w Hr.
  - simpl. by rewrite app_nil_r.
  - destruct (perform_steady c w Hr) as [Hr' Ho].
    unfold perform_all in *. simpl. rewrite IH by done.
    by rewrite Ho, <- app_assoc.
Qed.

Lemma publications_keep_call_order_witness :
  w_outbox (perform_all
              [CallPublish "channel:orders" [(KStr "order_id", PStr "o1")];
               CallSet "cart:7" PNone None;
               CallPublish "channel:sync" [(KOther "2024-01-01", PInt 1)];
               CallPublish "channel:products" [(KStr "product_id", PStr "p1")]]
              stocked) =
  w_outbox stocked ++
  concat (map published
            [CallPublish "channel:orders" [(KStr "order_id", PStr "o1")];
             CallSet "cart:7" PNone None;
             CallPublish "channel:sync" [(KOther "2024-01-01", PInt 1)];
             CallPublish "channel:products" [(KStr "product_id", PStr "p1")]]).
Proof.
  apply (publications_keep_call_order
           [CallPublish "channel:orders" [(KStr "order_id", PStr "o1")];
            CallSet "cart:7" PNone None;
            CallPublish "channel:sync" [(KOther "2024-01-01", PInt 1)];
            CallPublish "channel:products" [(KStr "product_id", PStr "p1")]]
           stocked).
  reflexivity.
Defined.

(** X14. [notify_sync_available] sends one message on [channel:sync]:
    the object with the members [tables] (the list it was given) and
    [action] ([sync_available]), in this order; when an element of the
    list cannot be encoded nothing is sent.  Either way it returns
    [None]. *)
Theorem sync_notification_shape (tables : list pyval) (w : world) :
  next_fault w = false →
  ∃ w', PubSubService.notify_sync_available tables w = (Ok PNone, w') ∧
        w_store w' = w_store w ∧
        if forallb encodable tables then
          ∃ t, w_outbox w' = w_outbox w ++ [("channel:sync", t)] ∧
               t = "{" +:+ quote "tables" +:+ ": " +:+ text (PList tables) +:+
                   ", " +:+ quote "action" +:+ ": " +:+ quote "sync_available" +:+
                   "}" ∧
               loads t = Ok (PDict [(KStr "tables", PList (map as_json tables));
                                    (KStr "action", PStr "sync_available")])
        else w_outbox w' = w_outbox w.
Proof.
  intros Hf.
  set (m := [(KStr "tables", PList tables); (KStr "action", PStr "sync_available")]).
  assert (encodable (PDict m) = forallb encodable tables) as Hm.
  { simpl. by rewrite !andb_true_r. }
  unfold PubSubService.notify_sync_available, bind, ret. fold m.
  unfold PubSubService.CHANNEL_SYNC.
  destruct (forallb encodable tables) eqn:Ev.
  - destruct (publish_sends "channel:sync" m w Hm Hf) as (w' & Hp & Ho & Hs).
    exists w'. rewrite Hp. repeat split; [done|].
    exists (text (PDict m)). repeat split; [done|].
    by rewrite loads_text.
  - destruct (publish_unencodable "channel:sync" m w Hm) as (w' & Hp & Hs & Ho).
    exists w'. by rewrite Hp.
Qed.

Lemma sync_notification_shape_witness :
  ∃ w', PubSubService.notify_sync_available [PStr "products"; PStr "orders"] idle =
          (Ok PNone, w') ∧
        w_store w' = w_store idle ∧
        ∃ t, w_outbox w' = w_outbox idle ++ [("channel:sync", t)] ∧
             t = "{" +:+ quote "tables" +:+ ": " +:+
                 text (PList [PStr "products"; PStr "orders"]) +:+
                 ", " +:+ quote "action" +:+ ": " +:+ quote "sync_available" +:+
                 "}" ∧
             loads t = Ok (PDict [(KStr "tables", PList [PStr "products"; PStr "orders"]);
                                  (KStr "action", PStr "sync_available")]).
Proof.
  apply (sync_notification_shape [PStr "products"; PStr "orders"] idle).
  reflexivity.
Defined.

(** ** Warnings *)

(** X15. A call logs at most one warning, and the warning carries the
    message of the operation that was called: after any call, in any
    world, the log is the earlier log, alone or followed by one line
    with that operation's message. *)
Theorem one_warning_per_failed_call (c : call) (w : world) :
  w_log (perform c w) = w_log w ∨
  ∃ e, w_log (perform c w) = w_log w ++ [(warning_text c, e)].
Proof.
  destruct w as [pool made store outbox faults log].
  destruct c as [key|key value ttl|key|pattern|channel message];
    unfold perform, warning_text.
  - run. destruct pool; simpl; split_matches; eauto.
  - run. destruct pool; simpl; split_matches; eauto.
  - run. destruct pool; simpl; split_matches; eauto.
  - unfold delete_pattern, SCAN_MATCH, DEL, get_redis, warning, try_except,
      bind, ret, transmit, set_pool, set_store, set_faults, set_log.
    cbn [w_store w_faults redis_pool w_made w_outbox w_log snd fst].
    destruct pool, faults as [|[] fs];
      cbn [w_store w_faults redis_pool w_made w_outbox w_log snd fst]; eauto;
      destruct (matching pattern store) as [|k0 ks];
      cbn [w_store w_faults redis_pool w_made w_outbox w_log snd fst]; eauto;
      try (destruct fs as [|[] fs'];
           cbn [w_store w_faults redis_pool w_made w_outbox w_log snd fst]; eauto);
      destruct (del_keys (k0 :: ks) store) as [cnt σ'];
      cbn [w_store w_faults redis_pool w_made w_outbox w_log snd fst]; eauto.
  - run. destruct pool; simpl; split_matches; eauto.
Qed.

(** X16. A miss caused by the transport does not stick: when the
    command of a [get] is lost, the call returns [None] and logs the
    connection error, the entry stays, and the next [get], sent on the
    same client over a transport that works again, returns the cached
    value and logs nothing. *)
Theorem get_recovers_after_outage
    (key : string) (value : pyval) (ttl : Z) (fs : list bool) (w : world) :
  encodable value = true →
  w_store w !! key = Some (Entry (text value) ttl) →
  w_faults w = true :: false :: fs →
  ∃ w1 w2,
    get key w = (Ok PNone, w1) ∧
    w_log w1 = w_log w ++ [("Cache get error", ConnectionError)] ∧
    same_data w w1 ∧
    get key w1 = (Ok (as_json value), w2) ∧
    w_log w2 = w_log w1 ∧
    redis_pool w2 = redis_pool w1.
Proof.
  intros Ev Hk Hfs. pose proof (loads_text value Ev) as Hl.
  destruct (text_start value) as (c & t & Hc & _). rewrite Hc in Hk, Hl.
  destruct w as [pool made store outbox faults log]. simpl in Hfs. subst faults.
  unfold same_data. run.
  destruct pool; simpl; eexists _, _; (split; [reflexivity|]); simpl;
    rewrite Hk; simpl; rewrite Hl; done.
Qed.

Lemma get_recovers_after_outage_witness :
  ∃ w1 w2,
    get "products:all" (World (Some 0%nat) 1 (w_store stocked) [] [true; false] []) =
      (Ok PNone, w1) ∧
    w_log w1 = [] ++ [("Cache get error", ConnectionError)] ∧
    same_data (World (Some 0%nat) 1 (w_store stocked) [] [true; false] []) w1 ∧
    get "products:all" w1 = (Ok (PList [PInt 1; PInt 2]), w2) ∧
    w_log w2 = w_log w1 ∧
    redis_pool w2 = redis_pool w1.
Proof.
  apply (get_recovers_after_outage "products:all" (PList [PInt 1; PInt 2]) 3600 []
           (World (Some 0%nat) 1 (w_store stocked) [] [true; false] []));
    reflexivity.
Defined.


(** ** Patterns without pattern characters *)

Lemma glob_match_plain p key :
  plain p = true → glob_match p key = bool_decide (key = p).
Proof.
  unfold glob_match. revert key. induction p as [|c p IH]; intros key Hp.
  - by destruct key.
  - simpl in Hp. apply andb_prop in Hp as [Hc Hp].
    unfold plain_char in Hc. apply negb_true_iff in Hc.
    apply orb_false_elim in Hc as [Hc H4]. apply orb_false_elim in Hc as [Hc H3].
    apply orb_false_elim in Hc as [H1 H2].
    simpl. rewrite H1, H2, H3, H4. destruct key as [|d key]; simpl; [done|].
    rewrite IH by done. destruct (Ascii.eqb_spec c d) as [->|Hne]; simpl.
    + destruct (decide (key = p)) as [->|Hn].
      * by rewrite !bool_decide_eq_true_2.
      * rewrite !bool_decide_eq_false_2; [done | congruence | done].
    + rewrite bool_decide_eq_false_2; [done | congruence].
Qed.

Lemma matching_plain p (σ : gmap string entry) :
  plain p = true →
  matching p σ = match σ !! p with Some _ => [p] | None => [] end.
Proof.
  intros Hp. destruct (RedisFacts.matching_spec p σ) as [Hnd Hin].
  assert (∀ k, k ∈ matching p σ ↔ k = p ∧ is_Some (σ !! p)) as Hin'.
  { intros k. rewrite Hin, glob_match_plain, bool_decide_eq_true by done.
    split; intros [-> ?]; done. }
  clear Hin. destruct (matching p σ) as [|k0 [|k1 ks]].
  - destruct (σ !! p) as [e|] eqn:He; [|done].
    exfalso. eapply not_elem_of_nil, Hin'. eauto.
  - destruct (Hin' k0) as [[-> [e ->]] _]; [apply list_elem_of_here | done].
  - exfalso. apply NoDup_cons in Hnd as [Hk0 _]. apply Hk0.
    destruct (Hin' k0) as [[-> _] _]; [apply list_elem_of_here|].
    destruct (Hin' k1) as [[-> _] _];
      [apply list_elem_of_further, list_elem_of_here | apply list_elem_of_here].
Qed.

(** X17. A pattern without pattern characters names one key:
    on a working transport [delete_pattern] with such a pattern leaves
    the store as [delete] of that key does, and returns 1 when the key
    was cached and 0 when it was not (where [delete] returns [True] in
    both cases). *)
Theorem plain_pattern_deletes_one_key (p : string) (w : world) :
  plain p = true → fault_free 2 w = true →
  ∃ w1 w2,
    delete_pattern p w =
      (Ok (match w_store w !! p with Some _ => 1 | None => 0 end), w1) ∧
    CacheService.delete p w = (Ok true, w2) ∧
    w_store w1 = w_store w2 ∧
    w_store w1 = base.delete p (w_store w).
Proof.
  intros Hp Hf.
  destruct (delete_pattern_removes p w Hf) as (w1 & Hd & _ & Hl).
  pose proof Hf as Hf'. apply fault_free_S in Hf' as [Hf1 _].
  destruct (delete_removes p w Hf1) as (w2 & Hd2 & Hst & _).
  assert (w_store w1 = base.delete p (w_store w)) as Hst1.
  { apply map_eq. intros k. rewrite Hl, glob_match_plain by done.
    destruct (decide (k = p)) as [->|Hne].
    - by rewrite bool_decide_eq_true_2, lookup_delete_eq.
    - by rewrite bool_decide_eq_false_2, lookup_delete_ne. }
  exists w1, w2. rewrite Hd, Hd2, Hst, Hst1, matching_plain by done.
  by destruct (w_store w !! p).
Qed.

Lemma plain_pattern_deletes_one_key_witness :
  ∃ w1 w2,
    delete_pattern "products:all" stocked =
      (Ok (match w_store stocked !! "products:all" with Some _ => 1 | None => 0 end),
       w1) ∧
    CacheService.delete "products:all" stocked = (Ok true, w2) ∧
    w_store w1 = w_store w2 ∧
    w_store w1 = base.delete "products:all" (w_store stocked).
Proof.
  apply (plain_pattern_deletes_one_key "products:all" stocked); reflexivity.
Defined.

(** ** What comes back from the cache *)

Lemma dict_set_keys k v d :
  (dict_set k v d).*1 = if decide (k ∈ d.*1) then d.*1 else d.*1 ++ [k].
Proof.
  induction d as [|[k' v'] d IH]; [done|]. cbn [dict_set].
  destruct (decide (k = k')) as [->|Hne]; rewrite !fmap_cons; cbn [fst].
  - by rewrite decide_True by apply list_elem_of_here.
  - rewrite IH. destruct (decide (k ∈ d.*1)) as [Hin|Hin].
    + by rewrite decide_True by by apply list_elem_of_further.
    + rewrite decide_False; [done|]. by intros [?|?]%elem_of_cons.
Qed.

Lemma dict_set_Forall (P : pykey * pyval → Prop) k v d :
  P (k, v) → (∀ k' v', P (k', v') → P (k', v)) →
  Forall P d → Forall P (dict_set k v d).
Proof.
  intros Hkv Hsw. induction 1 as [|[k' v'] d Hx Hd IH]; simpl.
  - by constructor.
  - destruct (decide (k = k')) as [->|Hne]; constructor; eauto.
Qed.

Lemma dict_of_pairs_sound (P : pykey * pyval → Prop) ps :
  (∀ k v k' v', P (k, v) → P (k', v') → P (k', v)) →
  Forall P ps →
  NoDup (dict_of_pairs ps).*1 ∧ Forall P (dict_of_pairs ps).
Proof.
  intros Hsw Hps. unfold dict_of_pairs.
  assert (∀ acc, NoDup acc.*1 → Forall P acc →
            NoDup (fold_left (λ d kv, dict_set kv.1 kv.2 d) ps acc).*1 ∧
            Forall P (fold_left (λ d kv, dict_set kv.1 kv.2 d) ps acc)) as H.
  { induction Hps as [|[k v] ps Hx Hps IH]; intros acc Hnd Hacc; [done|].
    simpl. apply IH.
    - cbn [fst snd]. rewrite dict_set_keys. destruct (decide (k ∈ acc.*1)); [done|].
      apply NoDup_app. repeat split; [done | | apply NoDup_singleton].
      intros x Hx1 ->%list_elem_of_singleton. done.
    - cbn [fst snd]. apply dict_set_Forall; eauto. }
  apply H; [apply NoDup_nil_2 | done].
Qed.

Lemma as_json_json_value v : json_value (as_json v) = true.
Proof.
  induction v as [|b|z|s|l IH|l IH|d IH|r] using pyval_rect_nested; try done.
  - simpl. induction IH as [|x l Hx _ IHl]; [done|]. simpl. by rewrite Hx.
  - simpl. induction IH as [|x l Hx _ IHl]; [done|]. simpl. by rewrite Hx.
  - simpl.
    destruct (dict_of_pairs_sound
                (λ kv, is_str_key kv.1 && json_value kv.2 = true)
                (map (λ kv, (KStr (default EmptyString (key_text kv.1)),
                             as_json kv.2)) d)) as [Hnd Hall].
    + intros k v k' v' [_ Hv]%andb_prop [Hk _]%andb_prop. simpl in *.
      by rewrite Hk, Hv.
    + induction IH as [|[k x] d Hx _ IHd]; constructor; [|done].
      simpl in *. done.
    + rewrite bool_decide_eq_true_2 by done. rewrite andb_true_r.
      clear -Hall. induction Hall as [|kv l Hx _ IHl]; [done|].
      simpl in *. by rewrite Hx.
Qed.

(** X18. What [get] returns can be cached again without change: the
    value read back after a [set] of any encodable value is a value of
    the JSON data model (tuples have become lists, keys strings, other
    objects their [str]), and a [set] of that value followed by [get]
    returns exactly it. *)
Theorem reread_value_is_stable
    (key key' : string) (value : pyval) (ttl ttl' : option Z) (w w1 w2 : world)
    (back : pyval) :
  0 < ttl_or ttl' MEDIUM_TTL →
  set key value ttl w = (Ok true, w1) →
  next_fault w1 = false →
  get key w1 = (Ok back, w2) →
  fault_free 2 w2 = true →
  back = as_json value ∧ json_value back = true ∧
  ∃ w3 w4, set key' back ttl' w2 = (Ok true, w3) ∧ get key' w3 = (Ok back, w4).
Proof.
  intros Ht Hs Hf Hg Hf2.
  apply set_true_inv in Hs as (t & Hd & Hst & _ & _).
  assert (encodable value = true) as Ev.
  { unfold dumps in Hd. by destruct (encodable value). }
  assert (t = text value) as ->.
  { unfold dumps in Hd. rewrite Ev in Hd. by injection Hd. }
  destruct (text_start value) as (c & t & Hc & _).
  destruct (get_reads key w1 c t (ttl_or ttl MEDIUM_TTL) (as_json value))
    as (w2' & Hg' & _); [done | | | ].
  { by rewrite Hst, lookup_insert_eq, Hc. }
  { rewrite <- Hc. by apply loads_text. }
  rewrite Hg in Hg'. injection Hg' as -> _.
  pose proof (as_json_json_value value) as Hj. repeat split; [done|].
  destruct (set_then_get key' (as_json value) ttl' w2) as (w3 & w4 & Hs3 & _ & Hg4);
    [by apply json_value_encodable | done | done |].
  exists w3, w4. by rewrite json_value_as_json in Hg4.
Qed.

Lemma reread_value_is_stable_witness :
  PList [PStr "2024-01-01"; PList [PInt 1]] =
    as_json (PTuple [PObj "2024-01-01"; PTuple [PInt 1]]) ∧
  json_value (PList [PStr "2024-01-01"; PList [PInt 1]]) = true ∧
  ∃ w3 w4,
    set "cart:8" (PList [PStr "2024-01-01"; PList [PInt 1]]) (Some 60)
      (get "cart:7"
         (set "cart:7" (PTuple [PObj "2024-01-01"; PTuple [PInt 1]]) None idle).2).2 =
      (Ok true, w3) ∧
    get "cart:8" w3 = (Ok (PList [PStr "2024-01-01"; PList [PInt 1]]), w4).
Proof.
  apply (reread_value_is_stable "cart:7" "cart:8"
           (PTuple [PObj "2024-01-01"; PTuple [PInt 1]]) None (Some 60) idle
           (set "cart:7" (PTuple [PObj "2024-01-01"; PTuple [PInt 1]]) None idle).2
           (get "cart:7"
              (set "cart:7" (PTuple [PObj "2024-01-01"; PTuple [PInt 1]]) None idle).2).2);
    reflexivity.
Defined.


(** ** Keys built from an id *)

(** A helper that drops the result of [set] changes the world as the
    [set] does. *)
Lemma set_helper_world key value ttl w :
  (set key value ttl ;;; ret PNone) w =
  (match (set key value ttl w).1 with Ok _ => Ok PNone | Err e => Err e end,
   perform (CallSet key value ttl) w).
Proof. unfold bind, ret, perform. by destruct (set key value ttl w) as [[b|e] w']. Qed.

(** X19. Entries built from an id are kept apart by the id: on any
    transport, [set_product] leaves the entry of every other product
    id as it was, and [set_last_sync_timestamp] the entry of every
    other table.  The id [all] is not kept apart from the product list:
    [set_product("all", d)] writes the entry [get_all_products] reads,
    which then returns the dictionary [d]. *)
Theorem entries_are_kept_apart_by_id
    (id id' table table' : string) (d : list (pykey * pyval)) (ttl : option Z)
    (ts : Z) (w : world) :
  (id' ≠ id →
   w_store (set_product id d ttl w).2 !! (PREFIX_PRODUCTS +:+ id') =
   w_store w !! (PREFIX_PRODUCTS +:+ id')) ∧
  (table' ≠ table →
   w_store (set_last_sync_timestamp table ts w).2 !!
     (PREFIX_SYNC +:+ "timestamp:" +:+ table') =
   w_store w !! (PREFIX_SYNC +:+ "timestamp:" +:+ table')) ∧
  (json_value (PDict d) = true → 0 < ttl_or ttl LONG_TTL → fault_free 2 w = true →
   ∃ w1 w2, set_product "all" d ttl w = (Ok PNone, w1) ∧
            get_all_products w1 = (Ok (PDict d), w2)).
Proof.
  repeat split.
  - intros Hne. unfold set_product. rewrite set_helper_world. cbn [snd].
    apply perform_spares. unfold targets. apply bool_decide_eq_false_2.
    simpl. by intros [= ?].
  - intros Hne. unfold set_last_sync_timestamp. rewrite set_helper_world. cbn [snd].
    apply perform_spares. unfold targets. apply bool_decide_eq_false_2.
    simpl. by intros [= ?].
  - intros Hd Ht Hf.
    destruct (long_lived_round_trip "products:all" (PDict d) ttl w Hd Ht Hf)
      as (w1 & w2 & Hs & _ & Hg).
    by exists w1, w2.
Qed.

Lemma entries_are_kept_apart_by_id_witness :
  w_store (set_product "2" [] None stocked).2 !! (PREFIX_PRODUCTS +:+ "1") =
  w_store stocked !! (PREFIX_PRODUCTS +:+ "1").
Proof.
  apply (proj1 (entries_are_kept_apart_by_id "2" "1" "orders" "users" [] None 0
                  stocked)).
  discriminate.
Defined.

(** ** What the store holds *)

Lemma del_keys_sub ks (σ : gmap string entry) k e :
  (del_keys ks σ).2 !! k = Some e → σ !! k = Some e.
Proof.
  revert σ. induction ks as [|k0 ks IH]; intros σ; [done|]. simpl.
  destruct (σ !! k0) as [e0|] eqn:He.
  - specialize (IH (base.delete k0 σ)).
    destruct (del_keys ks (base.delete k0 σ)) as [n σ']. simpl in *.
    intros H. apply IH in H. by apply lookup_delete_Some in H as [_ ?].
  - apply IH.
Qed.

Lemma del_keys_sound ks (σ : gmap string entry) :
  map_Forall (λ _ e, sound_entry e = true) σ →
  map_Forall (λ _ e, sound_entry e = true) (del_keys ks σ).2.
Proof. intros Hs k e Hk. by eapply Hs, del_keys_sub. Qed.

Lemma delete_store key w :
  w_store (CacheService.delete key w).2 = w_store w ∨
  w_store (CacheService.delete key w).2 = (del_keys [key] (w_store w)).2.
Proof.
  destruct w as [pool made store outbox faults log].
  unfold CacheService.delete, DEL, get_redis, warning, try_except,
    bind, ret, transmit, set_pool, set_store, set_faults, set_log.
  cbn [w_store w_faults redis_pool w_made w_outbox w_log snd fst].
  destruct pool, faults as [|[] fs];
    cbn [w_store w_faults redis_pool w_made w_outbox w_log snd fst]; auto;
    destruct (del_keys [key] store) as [cnt σ'];
    cbn [w_store w_faults redis_pool w_made w_outbox w_log snd fst]; auto.
Qed.

Lemma perform_sound c w :
  map_Forall (λ _ e, sound_entry e = true) (w_store w) →
  map_Forall (λ _ e, sound_entry e = true) (w_store (perform c w)).
Proof.
  intros Hs. destruct c as [key|key value ttl|key|pattern|channel message];
    unfold perform.
  - destruct w as [pool made store outbox faults log].
    run. destruct pool; simpl; split_matches; done.
  - destruct (set key value ttl w) as [[[]|e] w'] eqn:Hset; cbn [snd].
    + apply set_true_inv in Hset as (t & Hd & -> & _ & Ht). simpl.
      apply map_Forall_insert_2; [|done]. unfold sound_entry. simpl.
      rewrite (loads_dumps value t Hd). apply andb_true_iff. split; [lia | done].
    + apply set_false_keeps in Hset as [-> _]. done.
    + exfalso. destruct w as [pool made store outbox faults log].
      revert Hset. run. destruct pool; simpl; split_matches; done.
  - destruct (delete_store key w) as [-> | ->]; [done | by apply del_keys_sound].
  - destruct (delete_pattern_store pattern w) as [-> | ->];
      [done | by apply del_keys_sound].
  - destruct w as [pool made store outbox faults log].
    run. destruct pool; simpl; split_matches; done.
Qed.

(** X20. The service keeps the store readable: when every entry has a
    positive TTL and a text that [json.loads] accepts, the same holds
    after any sequence of calls, on any transport.  On a store written
    only through this service no entry is without expiry and no [get]
    meets a text it cannot decode. *)
Theorem store_stays_sound (cs : list call) (w : world) :
  map_Forall (λ _ e, sound_entry e = true) (w_store w) →
  map_Forall (λ _ e, sound_entry e = true) (w_store (perform_all cs w)).
Proof.
  revert w. induction cs as [|c cs IH]; intros w Hs; [done|].
  unfold perform_all in *. simpl. by apply IH, perform_sound.
Qed.

Lemma store_stays_sound_witness :
  map_Forall (λ _ e, sound_entry e = true)
    (w_store (perform_all
                [CallSet "cart:7" sample_value (Some (-1));
                 CallSet "cart:8" sample_value None;
                 CallDeletePattern "products:*"] stocked)).
Proof.
  apply (store_stays_sound
           [CallSet "cart:7" sample_value (Some (-1));
            CallSet "cart:8" sample_value None;
            CallDeletePattern "products:*"] stocked).
  repeat (apply map_Forall_insert_2; [vm_compute; reflexivity|]).
  apply map_Forall_empty.
Defined.


(** ** What the decoder returns *)





End Coverage.
